(** * MCMC cipher cracker: a shallow embedding of [metropolis-hastings.py]

    The Python module is embedded function by function.  Characters are
    [ascii], a Python [str] is the list of its characters (so [list(message)]
    and [''.join(messageList)] are the identity), a [dict] is a [gmap], a
    float is the real number it stands for, and an uncaught exception is the
    [Err] branch of [result].  Where the value of a float matters and not only
    the order of two scores, the arithmetic is that of binary64 with its
    rounding ([acceptProb64]).  The random draws of the module
    ([random.sample], [random.uniform]) are explicit arguments of the functions
    that make them. *)

From Stdlib Require Import Ascii Reals Lra.
From stdpp Require Import gmap strings list fin_maps.

Local Open Scope R_scope.

(** ** Exceptions and results *)

(** The exceptions the module can let escape. [KeyError] is caught wherever it
    can occur, so it never leaves a function. *)
Inductive exn : Set :=
  | IndexError
  | ValueError
  | ZeroDivisionError.

Inductive result (A : Type) : Type :=
  | Ok (a : A)
  | Err (e : exn).
Arguments Ok {A} a.
Arguments Err {A} e.

#[global] Instance result_ret : MRet result := λ A a, Ok a.

#[global] Instance result_bind : MBind result := λ A B k r,
  match r with
  | Ok a => k a
  | Err e => Err e
  end.

Definition is_Ok {A} (r : result A) : Prop := ∃ a, r = Ok a.

(** Monadic left fold: the body of a [for] loop that may raise. *)
Fixpoint foldM {A B} (f : A → B → result A) (acc : A) (l : list B) : result A :=
  match l with
  | [] => Ok acc
  | b :: l' => acc' ← f acc b; foldM f acc' l'
  end.

(** ** The codec: [encipher] (lines 39-61) *)

(** Lines 41-48: [cipherMap[char] = cipher[i]] for [i, char] in
    [enumerate(alphabet)].  The index [i] counts from the argument [i];
    [cipher[i]] out of range raises [IndexError], which the [except KeyError]
    does not catch.  A later occurrence of a character overwrites the entry of
    an earlier one. *)
Fixpoint cipherMap_loop (alphabet cipher : list ascii) (i : nat)
    (cipherMap : gmap ascii ascii) : result (gmap ascii ascii) :=
  match alphabet with
  | [] => Ok cipherMap
  | char :: rest =>
      match cipher !! i with
      | Some x => cipherMap_loop rest cipher (S i) (<[char := x]> cipherMap)
      | None => Err IndexError
      end
  end.

(** Lines 52-56: [messageList[i] = cipherMap[char]] for [i, char] in
    [enumerate(messageList)], the list being updated in place while it is
    traversed; a [KeyError] leaves the position as it is.  [n] bounds the
    number of iterations left, [i] is the position of the iterator. *)
Fixpoint subst_loop (cipherMap : gmap ascii ascii) (n i : nat)
    (messageList : list ascii) : list ascii :=
  match n with
  | O => messageList
  | S n' =>
      match messageList !! i with
      | None => messageList
      | Some char =>
          match cipherMap !! char with
          | Some x => subst_loop cipherMap n' (S i) (<[i := x]> messageList)
          | None => subst_loop cipherMap n' (S i) messageList
          end
      end
  end.

Definition encipher (message cipher alphabet : list ascii) : result (list ascii) :=
  cipherMap ← cipherMap_loop alphabet cipher 0 ∅;
  Ok (subst_loop cipherMap (length message) 0 message).

(** ** Random draws *)

(** [random.sample(population, k)] raises [ValueError] when [k] exceeds the
    size of the population and otherwise returns the elements found at [k]
    positions of the population.  The positions it selects are the argument
    [positions]; [sample_ok] is the contract of the library on them: [k]
    pairwise distinct positions of the population. *)
Definition random_sample {A} (population : list A) (k : nat)
    (positions : list nat) : result (list A) :=
  if decide (length population < k)%nat then Err ValueError
  else Ok (omap (λ p, population !! p) positions).

Definition sample_ok (n k : nat) (positions : list nat) : Prop :=
  length positions = k ∧ NoDup positions ∧ Forall (λ p, p < n)%nat positions.

(** ** Generators: [permuteAlph] (lines 18-23) and [swapCipher] (lines 75-79) *)

Definition permuteAlph (alphabet : list ascii) (positions : list nat)
    : result (list ascii) :=
  random_sample alphabet (length alphabet) positions.

(** Line 77 unpacks the sample into [i, j] (a sample of any other length makes
    the unpacking raise [ValueError]); line 78 reads [cipherList[j]] and
    [cipherList[i]] first and then stores them at [i] and at [j]. *)
Definition swapCipher (cipher : list ascii) (positions : list nat)
    : result (list ascii) :=
  let cipherList := cipher in
  s ← random_sample (seq 0 (length cipherList)) 2 positions;
  match s with
  | [i; j] =>
      match cipherList !! j, cipherList !! i with
      | Some xj, Some xi => Ok (<[j := xi]> (<[i := xj]> cipherList))
      | _, _ => Err IndexError
      end
  | _ => Err ValueError
  end.

(** ** The scorer: [measure] (lines 204-212) *)

(** [math.log] raises [ValueError] outside the positive reals. *)
Definition math_log (x : R) : result R :=
  if Rlt_dec 0 x then Ok (ln x) else Err ValueError.

(** One iteration of the loop of lines 207-211 (the same loop is written twice
    more in [acceptProb], lines 163-168 and 169-174):
    [logProb += math.log(M[unscrambled[i]][unscrambled[i+1]])], a [KeyError]
    of either lookup being skipped. *)
Definition logProb_step (M : gmap ascii (gmap ascii R)) (unscrambled : list ascii)
    (logProb : R) (i : nat) : result R :=
  match unscrambled !! i, unscrambled !! (i + 1)%nat with
  | Some s, Some s' =>
      match M !! s with
      | None => Ok logProb
      | Some row =>
          match row !! s' with
          | None => Ok logProb
          | Some p => l ← math_log p; Ok (logProb + l)
          end
      end
  | _, _ => Err IndexError
  end.

(** The loop, from [logProb = 0.0], over [range(len(unscrambled) - 1)]. *)
Definition logProb_loop (M : gmap ascii (gmap ascii R)) (unscrambled : list ascii)
    : result R :=
  foldM (logProb_step M unscrambled) 0 (seq 0 (length unscrambled - 1)).

Definition measure (cipher encipheredMessage : list ascii)
    (M : gmap ascii (gmap ascii R)) (alphabet : list ascii) : result R :=
  unscrambled ← encipher encipheredMessage alphabet cipher;
  logProb_loop M unscrambled.

(** ** The acceptance probability: [acceptProb] (lines 153-185) *)

(** Both messages are unscrambled first, then the two loops run, then the
    difference is tested with [diff > 0] (line 180). *)
Definition acceptProb (X Y encipheredMessage : list ascii)
    (M : gmap ascii (gmap ascii R)) (alphabet : list ascii) : result R :=
  unscrambledX ← encipher encipheredMessage alphabet X;
  unscrambledY ← encipher encipheredMessage alphabet Y;
  logProbX ← logProb_loop M unscrambledX;
  logProbY ← logProb_loop M unscrambledY;
  let diff := logProbY - logProbX in
  if Rlt_dec 0 diff then Ok 1 else Ok (exp diff).

(** ** The search loop: [metropolisHastings] (lines 230-248) *)

(** The state the loop carries: [(currCipher, bestRevCipher)]. *)
Record state : Type := State {
  currCipher : list ascii;
  bestRevCipher : list ascii
}.

(** The draws of one iteration: the positions of [swapCipher]'s sample and the
    value of [random.uniform(0.0, 1.0)]. *)
Record draw : Type := Draw {
  swap_positions : list nat;
  uniform : R
}.

(** The body of the loop, lines 239-247. *)
Definition mh_step (encipheredMessage : list ascii)
    (M : gmap ascii (gmap ascii R)) (alphabet : list ascii)
    (draws : nat → draw) (st : state) (i : nat) : result state :=
  nextCipher ← swapCipher (currCipher st) (swap_positions (draws i));
  acceptanceProbability ←
    acceptProb (currCipher st) nextCipher encipheredMessage M alphabet;
  if Rgt_dec acceptanceProbability (uniform (draws i)) then
    mc ← measure nextCipher encipheredMessage M alphabet;
    mb ← measure (bestRevCipher st) encipheredMessage M alphabet;
    if Rgt_dec mc mb then Ok (State nextCipher nextCipher)
    else Ok (State nextCipher (bestRevCipher st))
  else Ok st.

(** The state after the first [n] iterations, from the initial cipher drawn by
    [permuteAlph] with the positions [init]. *)
Definition mh_run (alphabet encipheredMessage : list ascii)
    (M : gmap ascii (gmap ascii R)) (init : list nat) (draws : nat → draw)
    (n : nat) : result state :=
  initial ← permuteAlph alphabet init;
  foldM (mh_step encipheredMessage M alphabet draws)
        (State initial initial) (seq 0 n).

Definition metropolisHastings (alphabet encipheredMessage : list ascii)
    (M : gmap ascii (gmap ascii R)) (max_iter : nat)
    (init : list nat) (draws : nat → draw) : result (list ascii) :=
  st ← mh_run alphabet encipheredMessage M init draws max_iter;
  Ok (bestRevCipher st).

(** ** The transition model: [transitionMatrix] (lines 99-135) *)

(** [str.isspace] on the code points below 256. *)
Definition isspace (c : ascii) : bool :=
  let n := nat_of_ascii c in
  ((9 <=? n) && (n <=? 13) || (28 <=? n) && (n <=? 32)
   || (n =? 133) || (n =? 160))%nat.

(** [line.rstrip()]: the line without its trailing white space. *)
Fixpoint rstrip (line : list ascii) : list ascii :=
  match line with
  | [] => []
  | c :: rest =>
      match rstrip rest with
      | [] => if isspace c then [] else [c]
      | r => c :: r
      end
  end.

(** Line 103: every pair of alphabet symbols starts at [0.0]. *)
Definition initial_matrix (alphabet : list ascii) : gmap ascii (gmap ascii R) :=
  let keys : gset ascii := list_to_set alphabet in
  gset_to_gmap (gset_to_gmap 0 keys) keys.

(** Line 114, [M[c1][c2] += 1]; a [KeyError] of either lookup leaves [M] as it
    is (lines 116-117). *)
Definition increment (M : gmap ascii (gmap ascii R)) (c1 c2 : ascii)
    : gmap ascii (gmap ascii R) :=
  match M !! c1 with
  | None => M
  | Some row =>
      match row !! c2 with
      | None => M
      | Some v => <[c1 := <[c2 := v + 1]> row]> M
      end
  end.

(** Lines 109-117 for one index [c] of the line. *)
Definition count_step (line : list ascii) (M : gmap ascii (gmap ascii R))
    (c : nat) : result (gmap ascii (gmap ascii R)) :=
  match line !! c, line !! (c + 1)%nat with
  | Some c1, Some c2 => Ok (increment M c1 c2)
  | _, _ => Err IndexError
  end.

(** Lines 107-117 for one line of the file. *)
Definition count_line (M : gmap ascii (gmap ascii R)) (line : list ascii)
    : result (gmap ascii (gmap ascii R)) :=
  let line := rstrip line in
  if decide (0 < length line)%nat
  then foldM (count_step line) M (seq 0 (length line - 1))
  else Ok M.

(** Lines 118-121: the sum of all the counts. *)
Definition row_sum (row : gmap ascii R) : R :=
  map_fold (λ _ v acc, acc + v) 0 row.

Definition matrix_total (M : gmap ascii (gmap ascii R)) : R :=
  map_fold (λ _ row total, total + row_sum row) 0 M.

(** Lines 124-126: [M[c1][c2] /= total] for every entry.  A float division by
    [0.0] raises [ZeroDivisionError]; it is reached as soon as there is one
    entry to divide. *)
Definition has_entry (M : gmap ascii (gmap ascii R)) : bool :=
  existsb (λ kr, negb (bool_decide (dom kr.2 = (∅ : gset ascii)))) (map_to_list M).

Definition normalize (M : gmap ascii (gmap ascii R)) (total : R)
    : result (gmap ascii (gmap ascii R)) :=
  if Req_dec_T total 0 then
    if has_entry M then Err ZeroDivisionError else Ok M
  else Ok ((λ row : gmap ascii R, (λ v, v / total) <$> row) <$> M).

(** Lines 129-132: every entry equal to [0.0] becomes [math.exp(-20)]. *)
Definition floor_zeros (M : gmap ascii (gmap ascii R)) : gmap ascii (gmap ascii R) :=
  (λ row : gmap ascii R, (λ v, if Req_dec_T v 0 then exp (-20) else v) <$> row) <$> M.

(** The file read is the list of its lines, the file written holds the
    returned matrix. *)
Definition transitionMatrix (readFile : list (list ascii)) (alphabet : list ascii)
    : result (gmap ascii (gmap ascii R)) :=
  M ← foldM count_line (initial_matrix alphabet) readFile;
  M ← normalize M (matrix_total M);
  Ok (floor_zeros M).

(** ** The driver (lines 251-307) *)

(** What the driver prints: the cipher it drew, the enciphered message, the
    reverse cipher the search returned, and the message read back with it. *)
Record report : Type := Report {
  cipher_used : list ascii;
  enciphered : list ascii;
  revCipher : list ascii;
  recovered : list ascii
}.

(** Lines 288-307.  The alphabet and the message, constants of the driver,
    and the matrix it loads from [TransitionMatrix.json] are arguments;
    [metropolisHastings] is called with its default [max_iter]. *)
Definition default_max_iter : nat := 100 * 100.

Definition main (alphabet message : list ascii) (M : gmap ascii (gmap ascii R))
    (cipher_positions init : list nat) (draws : nat → draw) : result report :=
  cipher ← permuteAlph alphabet cipher_positions;
  encipheredMessage ← encipher message cipher alphabet;
  revCipher ← metropolisHastings alphabet encipheredMessage M default_max_iter init draws;
  recovered ← encipher encipheredMessage alphabet revCipher;
  Ok (Report cipher encipheredMessage revCipher recovered).

(** ** Double-precision arithmetic *)

(** The definitions above take a float for the real number it stands for and
    compute exactly; that is enough wherever only the order of the scores
    matters.  The value [acceptProb] returns depends on rounding, so it is
    embedded a second time with the arithmetic of IEEE 754 binary64 written
    out: an operation returns its exact result rounded to the nearest
    binary64 number, ties to even.  Infinities and NaN are left out: the
    logarithms of finite positive floats lie between -745.2 and 709.8, so the
    sums and the difference of [acceptProb] stay far from the overflow
    threshold, and [math.exp] is only called on an argument that is not
    positive. *)

(** The largest integer not above [x]. *)
Definition Zfloor (x : R) : Z := (up x - 1)%Z.

(** The integer nearest to [x], the even one of the two when [x] is half way. *)
Definition ZnearestE (x : R) : Z :=
  let f := Zfloor x in
  if Rlt_dec (x - IZR f) (1/2) then f
  else if Rlt_dec (1/2) (x - IZR f) then (f + 1)%Z
  else if Z.even f then f else (f + 1)%Z.

(** The binary exponent of [x ≠ 0]: [2^(mag x - 1) <= |x| < 2^(mag x)]. *)
Definition mag (x : R) : Z := (Zfloor (ln (Rabs x) / ln 2) + 1)%Z.

(** The exponent of the last place of a binary64 number of exponent [e]: 53
    bits of precision, and the subnormal numbers are multiples of
    [2^(-1074)]. *)
Definition fexp64 (e : Z) : Z := Z.max (e - 53) (-1074).

Definition round64 (x : R) : R :=
  if Req_dec_T x 0 then 0
  else
    let e := fexp64 (mag x) in
    IZR (ZnearestE (x * powerRZ 2 (- e))) * powerRZ 2 e.

(** Float addition and subtraction ([+=] of lines 166 and 172, [-] of line
    177). *)
Definition fl_add (x y : R) : R := round64 (x + y).
Definition fl_sub (x y : R) : R := round64 (x - y).

(** [math.log] and [math.exp] are functions of the C library, which is not
    part of the module: they are taken through an interface.  [LibmLaws] is
    what the results need of [math.exp]: [math.exp(0.0)] is [1.0], and on an
    argument that is not positive the value lies between [0.0] and [1.0]. *)
Class Libm : Type := {
  libm_log : R → R;
  libm_exp : R → R
}.

Class LibmLaws (L : Libm) : Prop := {
  libm_exp_0 : libm_exp 0 = 1;
  libm_exp_range : ∀ x, x <= 0 → 0 <= libm_exp x <= 1
}.

(** A C library that rounds the exact logarithm and exponential correctly. *)
Definition correctly_rounded : Libm :=
  {| libm_log := λ x, round64 (ln x); libm_exp := λ x, round64 (exp x) |}.

Definition math_log64 {L : Libm} (x : R) : result R :=
  if Rlt_dec 0 x then Ok (libm_log x) else Err ValueError.

(** Lines 163-168 and 169-174 with the rounding of [+=]. *)
Definition logProb_step64 {L : Libm} (M : gmap ascii (gmap ascii R))
    (unscrambled : list ascii) (logProb : R) (i : nat) : result R :=
  match unscrambled !! i, unscrambled !! (i + 1)%nat with
  | Some s, Some s' =>
      match M !! s with
      | None => Ok logProb
      | Some row =>
          match row !! s' with
          | None => Ok logProb
          | Some p => l ← math_log64 p; Ok (fl_add logProb l)
          end
      end
  | _, _ => Err IndexError
  end.

Definition logProb_loop64 {L : Libm} (M : gmap ascii (gmap ascii R))
    (unscrambled : list ascii) : result R :=
  foldM (logProb_step64 M unscrambled) 0 (seq 0 (length unscrambled - 1)).

(** [acceptProb] (lines 153-185) in double precision. *)
Definition acceptProb64 {L : Libm} (X Y encipheredMessage : list ascii)
    (M : gmap ascii (gmap ascii R)) (alphabet : list ascii) : result R :=
  unscrambledX ← encipher encipheredMessage alphabet X;
  unscrambledY ← encipher encipheredMessage alphabet Y;
  logProbX ← logProb_loop64 M unscrambledX;
  logProbY ← logProb_loop64 M unscrambledY;
  let diff := fl_sub logProbY logProbX in
  if Rlt_dec 0 diff then Ok 1 else Ok (libm_exp diff).

(** ** Specification-side definitions *)

(** The codec as section 4.1 of the specification names its arguments:
    [apply(text, sourceOrder, targetOrder)] replaces the symbol at a position
    of [sourceOrder] by the symbol at that position of [targetOrder].  In the
    source the target is the second and the source the third parameter. *)
Definition apply (text sourceOrder targetOrder : list ascii) : result (list ascii) :=
  encipher text targetOrder sourceOrder.

(** The adjacent symbol pairs of a text, first to last. *)
Fixpoint adjacent (s : list ascii) : list (ascii * ascii) :=
  match s with
  | a :: (b :: _) as t => (a, b) :: adjacent t
  | _ => []
  end.

(** What one adjacent pair adds to the score: [ln (M[a][b])], and [0] when the
    model has no entry for the pair. *)
Definition pair_term (M : gmap ascii (gmap ascii R)) (p : ascii * ascii) : R :=
  match M !! p.1 ≫= (λ row, row !! p.2) with
  | Some v => ln v
  | None => 0
  end.

(** The score of section 4.4 on a decoded text. *)
Definition score_sum (M : gmap ascii (gmap ascii R)) (decoded : list ascii) : R :=
  foldr (λ p acc, pair_term M p + acc) 0 (adjacent decoded).

(** The score as section 4.4 words it: the message decoded with the codec from
    the alphabet to the permutation, then summed. *)
Definition score_spec (permutation encipheredMessage : list ascii)
    (M : gmap ascii (gmap ascii R)) (alphabet : list ascii) : result R :=
  decoded ← apply encipheredMessage alphabet permutation;
  Ok (score_sum M decoded).

(** Every entry of the model is a positive real, the invariant section 3
    gives the transition model. *)
Definition positive_model (M : gmap ascii (gmap ascii R)) : Prop :=
  ∀ a b row v, M !! a = Some row → row !! b = Some v → 0 < v.

(** The acceptance rule of section 4.5 on two scores. *)
Definition acceptanceProbability_rule (scoreCurrent scoreProposed : R) : R :=
  let diff := scoreProposed - scoreCurrent in
  if Rle_dec 0 diff then 1 else exp diff.

(** The pairs the loop of [transitionMatrix] goes over: the adjacent pairs
    within every line after its [rstrip], in the order of the file. *)
Definition file_pairs (readFile : list (list ascii)) : list (ascii * ascii) :=
  concat ((λ line, adjacent (rstrip line)) <$> readFile).

(** How often the pair [(c1, c2)] occurs. *)
Definition pair_count (c1 c2 : ascii) (pairs : list (ascii * ascii)) : nat :=
  length (filter (λ p, p = (c1, c2)) pairs).

(** The pairs that are counted: both symbols are in the alphabet. *)
Definition counted (alphabet : list ascii) (pairs : list (ascii * ascii))
    : list (ascii * ascii) :=
  filter (λ p, p.1 ∈ alphabet ∧ p.2 ∈ alphabet) pairs.

(** The consecutive symbol pairs of the corpus as section 6 speaks of them:
    those of the text of the file, which is its lines one after the other. *)
Definition corpus_pairs (readFile : list (list ascii)) : list (ascii * ascii) :=
  adjacent (concat readFile).

(** What a caller can observe of a call: the value returned, or the condition
    it failed with.  [InvalidAlphabetSize] is the condition section 7 of the
    specification names; an exception of the source is an [Exception]. *)
Inductive condition : Set :=
  | InvalidAlphabetSize
  | Exception (e : exn).

Inductive outcome (A : Type) : Type :=
  | Returned (a : A)
  | Failed (c : condition).
Arguments Returned {A} a.
Arguments Failed {A} c.

Definition observe {A} (r : result A) : outcome A :=
  match r with
  | Ok a => Returned a
  | Err e => Failed (Exception e)
  end.

(** The proposal generator as sections 4.3 and 7 word it: on fewer than two
    symbols it fails with [InvalidAlphabetSize], otherwise it is the swap. *)
Definition propose_spec (currentPermutation : list ascii) (positions : list nat)
    : outcome (list ascii) :=
  if decide (length currentPermutation < 2)%nat then Failed InvalidAlphabetSize
  else observe (swapCipher currentPermutation positions).

(** ** Loop bodies and invariants of the proofs *)

(** The substitution of one symbol under a finished [cipherMap]. *)
Definition substitute (cipherMap : gmap ascii ascii) (c : ascii) : ascii :=
  default c (cipherMap !! c).

(** The body of the loop of [measure], given the pair [(s[i], s[i+1])]. *)
Definition pair_step (M : gmap ascii (gmap ascii R)) (logProb : R)
    (p : ascii * ascii) : result R :=
  match M !! p.1 with
  | None => Ok logProb
  | Some row =>
      match row !! p.2 with
      | None => Ok logProb
      | Some v => l ← math_log v; Ok (logProb + l)
      end
  end.

(** Every model entry met along the text is a positive real, so that
    [math.log] is defined on it. *)
Definition log_defined (M : gmap ascii (gmap ascii R)) (s : list ascii) : Prop :=
  Forall (λ p, ∀ row v, M !! p.1 = Some row → row !! p.2 = Some v → 0 < v)
         (adjacent s).

(** Wherever [measure] is defined on the current cipher, it is defined on the
    best one and not smaller there. *)
Definition best_dominates (encipheredMessage : list ascii)
    (M : gmap ascii (gmap ascii R)) (alphabet : list ascii) (st : state) : Prop :=
  ∀ sc, measure (currCipher st) encipheredMessage M alphabet = Ok sc →
    ∃ sb, measure (bestRevCipher st) encipheredMessage M alphabet = Ok sb ∧ sc <= sb.

(** Both ciphers of a state are permutations of the alphabet. *)
Definition permutation_state (alphabet : list ascii) (st : state) : Prop :=
  currCipher st ≡ₚ alphabet ∧ bestRevCipher st ≡ₚ alphabet.

(** The sum of [g] over the values of a dictionary. *)
Definition map_sum {A} (g : A → R) (m : gmap ascii A) : R :=
  map_fold (λ _ x acc, acc + g x) 0 m.

(** The matrix of the counts of [pairs]: its keys and the keys of its rows are
    the alphabet symbols, its entries are the counts, and [matrix_total] is the
    number of counted pairs. *)
Definition counts_inv (alphabet : list ascii) (pairs : list (ascii * ascii))
    (M : gmap ascii (gmap ascii R)) : Prop :=
  (∀ c1, is_Some (M !! c1) ↔ c1 ∈ alphabet) ∧
  (∀ c1 row c2, M !! c1 = Some row → is_Some (row !! c2) ↔ c2 ∈ alphabet) ∧
  (∀ c1 row c2 v, M !! c1 = Some row → row !! c2 = Some v →
                  v = INR (pair_count c1 c2 pairs)) ∧
  matrix_total M = INR (length (counted alphabet pairs)).

(** The body of the loop of [acceptProb] in double precision, given the pair
    [(s[i], s[i+1])]. *)
Definition pair_step64 {L : Libm} (M : gmap ascii (gmap ascii R)) (logProb : R)
    (p : ascii * ascii) : result R :=
  match M !! p.1 with
  | None => Ok logProb
  | Some row =>
      match row !! p.2 with
      | None => Ok logProb
      | Some v => l ← math_log64 v; Ok (fl_add logProb l)
      end
  end.

(** ** A worked example *)

(** A three-symbol alphabet, two keys of it, and a model whose nine entries
    sum to 1: the pair [(c, a)] has probability 1/2, the others 1/16. *)
Definition abc : list ascii := ["a"; "b"; "c"]%char.
Definition bca : list ascii := ["b"; "c"; "a"]%char.
Definition cba : list ascii := ["c"; "b"; "a"]%char.

Definition model_abc : gmap ascii (gmap ascii R) :=
  list_to_map
    [("a"%char, list_to_map [("a"%char, 1/16); ("b"%char, 1/16); ("c"%char, 1/16)]);
     ("b"%char, list_to_map [("a"%char, 1/16); ("b"%char, 1/16); ("c"%char, 1/16)]);
     ("c"%char, list_to_map [("a"%char, 1/2); ("b"%char, 1/16); ("c"%char, 1/16)])].

(** A model with one very unlikely pair: [(c, c)] has probability [2^(-1000)],
    [(a, a)] has 9/16 and the seven other pairs 1/16. *)
Definition model_underflow : gmap ascii (gmap ascii R) :=
  list_to_map
    [("a"%char, list_to_map [("a"%char, 9/16); ("b"%char, 1/16); ("c"%char, 1/16)]);
     ("b"%char, list_to_map [("a"%char, 1/16); ("b"%char, 1/16); ("c"%char, 1/16)]);
     ("c"%char, list_to_map [("a"%char, 1/16); ("b"%char, 1/16);
                             ("c"%char, powerRZ 2 (-1000))])].

(** A model with an entry that is zero, as a matrix without the floor has. *)
Definition model_zero : gmap ascii (gmap ascii R) :=
  {[ "a"%char := {[ "b"%char := 0 ]} ]}.

(** A file of one line that ends with a blank before its line break, and an
    alphabet that has the blank. *)
Definition corpus_blank : list (list ascii) := [["b"; "a"; " "; "010"]%char].
Definition alphabet_blank : list ascii := ["a"; "b"; " "]%char.

(** A file of two lines, the first one ending with a blank and a line break. *)
Definition corpus_example : list (list ascii) :=
  [["a"; "b"; "a"; " "; "010"]%char; ["b"; "a"]%char].

(** The draws of a run: every iteration swaps positions 0 and 2 and draws the
    uniform value 1/2. *)
Definition draws_example (i : nat) : draw := Draw [0; 2]%nat (1/2).

(** * Results *)

(** Closed decidable facts (membership, [NoDup], permutations of concrete
    lists) are settled by evaluation. *)
Ltac decide_closed := apply (bool_decide_unpack _); by vm_compute.

(** ** Results on the monad and the loops *)

Lemma foldM_app {A B} (f : A → B → result A) (acc : A) (l1 l2 : list B) :
  foldM f acc (l1 ++ l2) = (acc' ← foldM f acc l1; foldM f acc' l2).
Proof.
  revert acc. induction l1 as [|b l1 IH]; intros acc; cbn; [done|].
  destruct (f acc b); cbn; [apply IH | done].
Qed.

Lemma bind_Ok {A B} (r : result A) (k : A → result B) (b : B) :
  (a ← r; k a) = Ok b ↔ ∃ a, r = Ok a ∧ k a = Ok b.
Proof.
  destruct r as [a|e]; cbn; split.
  - intros Hk. by exists a.
  - by intros (a' & [= <-] & ?).
  - done.
  - by intros (a' & [=] & ?).
Qed.

Lemma bind_assoc {A B C} (r : result A) (f : A → result B) (g : B → result C) :
  (b ← (a ← r; f a); g b) = (a ← r; b ← f a; g b).
Proof. by destruct r. Qed.

Lemma foldM_Ok_foldl {A B} (f : A → B → A) (acc : A) (l : list B) :
  foldM (λ a b, Ok (f a b)) acc l = Ok (foldl f acc l).
Proof. revert acc. induction l as [|b l IH]; intros acc; cbn; [done|apply IH]. Qed.

(** A loop over the indices [0 .. len(s) - 2] that reads [s[i]] and [s[i+1]]
    is a loop over the adjacent pairs of [s]. *)
Lemma index_pairs_loop {A} (step : list ascii → A → nat → result A)
    (body : A → ascii * ascii → result A) :
  (∀ l acc i a b, l !! i = Some a → l !! (i + 1)%nat = Some b →
                  step l acc i = body acc (a, b)) →
  ∀ (pre s : list ascii) (acc : A),
    foldM (step (pre ++ s)) acc (seq (length pre) (length s - 1)) =
    foldM body acc (adjacent s).
Proof.
  intros Hstep pre s. revert pre. induction s as [|a s IH]; intros pre acc; [done|].
  destruct s as [|b t]; [done|].
  replace (length (a :: b :: t) - 1)%nat with (S (length t)) by (simpl; lia).
  cbn [seq adjacent foldM].
  rewrite (Hstep _ acc _ a b).
  - destruct (body acc (a, b)) as [acc'|e]; cbn; [|done].
    specialize (IH (pre ++ [a]) acc').
    rewrite <- (assoc_L (++)), length_app in IH. simpl in IH.
    rewrite Nat.sub_0_r, Nat.add_1_r in IH. exact IH.
  - by rewrite list_lookup_middle.
  - replace (pre ++ a :: b :: t) with ((pre ++ [a]) ++ b :: t)
      by by rewrite <- (assoc_L (++)).
    by rewrite list_lookup_middle by (rewrite length_app; simpl; lia).
Qed.

(** ** The codec *)

Lemma cipherMap_loop_Ok (alphabet cipher : list ascii) i m :
  (i + length alphabet ≤ length cipher)%nat →
  is_Ok (cipherMap_loop alphabet cipher i m).
Proof.
  revert i m. induction alphabet as [|char rest IH]; intros i m Hlen; simpl in *.
  - by eexists.
  - destruct (lookup_lt_is_Some_2 cipher i) as [x ->]; [lia|].
    apply IH. lia.
Qed.

Lemma cipherMap_loop_Err (alphabet cipher : list ascii) i m :
  (i ≤ length cipher < i + length alphabet)%nat →
  cipherMap_loop alphabet cipher i m = Err IndexError.
Proof.
  revert i m. induction alphabet as [|char rest IH]; intros i m Hlen; simpl in *.
  - lia.
  - destruct (cipher !! i) as [x|] eqn:Hx; [|done].
    apply lookup_lt_Some in Hx. apply IH. lia.
Qed.

(** A symbol that is not in the alphabet keeps the entry it had. *)
Lemma cipherMap_loop_notin (alphabet cipher : list ascii) i m m' c :
  cipherMap_loop alphabet cipher i m = Ok m' →
  c ∉ alphabet → m' !! c = m !! c.
Proof.
  revert i m. induction alphabet as [|char rest IH]; intros i m Hrun Hc; simpl in *.
  - by injection Hrun as <-.
  - destruct (cipher !! i) as [x|]; [|done].
    apply not_elem_of_cons in Hc as [Hne Hc].
    rewrite (IH _ _ Hrun Hc). by rewrite lookup_insert_ne.
Qed.

(** A symbol of the alphabet is mapped to the cipher symbol at the position
    of its last occurrence. *)
Lemma cipherMap_loop_last (alphabet cipher : list ascii) i m m' c k :
  cipherMap_loop alphabet cipher i m = Ok m' →
  alphabet !! k = Some c →
  (∀ j, (k < j)%nat → alphabet !! j ≠ Some c) →
  m' !! c = cipher !! (i + k)%nat ∧ is_Some (cipher !! (i + k)%nat).
Proof.
  revert i m k. induction alphabet as [|char rest IH]; intros i m k Hrun Hk Hlast;
    simpl in *; [done|].
  destruct (cipher !! i) as [x|] eqn:Hx; [|done].
  destruct k as [|k]; simpl in *.
  - injection Hk as ->.
    assert (c ∉ rest) as Hc.
    { intros [j Hj]%list_elem_of_lookup. apply (Hlast (S j)); [lia | done]. }
    rewrite (cipherMap_loop_notin _ _ _ _ _ _ Hrun Hc).
    rewrite lookup_insert_eq, Nat.add_0_r, Hx. eauto.
  - replace (i + S k)%nat with (S i + k)%nat by lia.
    apply (IH _ _ _ Hrun Hk). intros j Hj. apply (Hlast (S j)). lia.
Qed.

(** The in-place loop is a position-wise map: positions [i] to [i + n - 1] are
    substituted, the others are left alone. *)
Lemma subst_loop_lookup cipherMap n i (messageList : list ascii) k :
  subst_loop cipherMap n i messageList !! k =
    if decide (i ≤ k < i + n)%nat
    then substitute cipherMap <$> messageList !! k
    else messageList !! k.
Proof.
  revert i messageList. induction n as [|n IH]; intros i l; simpl.
  - case_decide; [lia | done].
  - destruct (l !! i) as [char|] eqn:Hi.
    + assert (i < length l)%nat by by eapply lookup_lt_Some.
      destruct (cipherMap !! char) as [x|] eqn:Hc; rewrite IH.
      * destruct (decide (k = i)) as [->|Hne].
        -- rewrite list_lookup_insert_eq by done.
           rewrite decide_False by lia. rewrite decide_True by lia.
           rewrite Hi. simpl. unfold substitute. by rewrite Hc.
        -- rewrite list_lookup_insert_ne by done.
           repeat case_decide; try lia; done.
      * destruct (decide (k = i)) as [->|Hne].
        -- rewrite decide_False by lia. rewrite decide_True by lia.
           rewrite Hi. simpl. unfold substitute. by rewrite Hc.
        -- repeat case_decide; try lia; done.
    + apply lookup_ge_None in Hi.
      case_decide; [|done].
      rewrite (lookup_ge_None_2 l k) by lia. done.
Qed.

Lemma subst_loop_map cipherMap (message : list ascii) :
  subst_loop cipherMap (length message) 0 message = substitute cipherMap <$> message.
Proof.
  apply list_eq. intros k. rewrite subst_loop_lookup, list_lookup_fmap.
  case_decide as Hk; [done|].
  rewrite (lookup_ge_None_2 message k) by lia. done.
Qed.

(** [encipher] in closed form. *)
Lemma encipher_Ok (message cipher alphabet : list ascii) :
  (length alphabet ≤ length cipher)%nat →
  ∃ cipherMap, cipherMap_loop alphabet cipher 0 ∅ = Ok cipherMap ∧
    encipher message cipher alphabet = Ok (substitute cipherMap <$> message).
Proof.
  intros Hlen.
  destruct (cipherMap_loop_Ok alphabet cipher 0 ∅) as [cm Hcm]; [lia|].
  exists cm. split; [done|]. unfold encipher. rewrite Hcm. simpl.
  by rewrite subst_loop_map.
Qed.

(** The only exception [encipher] can raise is the [IndexError] of a cipher
    shorter than the alphabet; it does not depend on the message. *)
Lemma encipher_Err (message cipher alphabet : list ascii) e :
  encipher message cipher alphabet = Err e ↔
  (length cipher < length alphabet)%nat ∧ e = IndexError.
Proof.
  split.
  - intros Herr. destruct (decide (length alphabet ≤ length cipher)%nat) as [Hle|Hgt].
    + destruct (encipher_Ok message cipher alphabet Hle) as (cm & _ & Hok).
      congruence.
    + unfold encipher in Herr.
      rewrite cipherMap_loop_Err in Herr by lia. cbn in Herr.
      split; [lia | congruence].
  - intros [Hlt ->]. unfold encipher. rewrite cipherMap_loop_Err by lia. done.
Qed.

(** In a duplicate-free order every occurrence is the last one. *)
Lemma NoDup_last_occurrence (l : list ascii) i c :
  NoDup l → l !! i = Some c → ∀ j, (i < j)%nat → l !! j ≠ Some c.
Proof.
  intros Hnd Hi j Hj Hc. pose proof (NoDup_lookup l i j c Hnd Hi Hc). lia.
Qed.

(** C10 (codec length preservation): for a cipher and an alphabet of equal
    length, [encipher] returns a text as long as the message, and there is one
    function of symbols, fixed by the cipher and the alphabet alone, that
    gives the output symbol at every position from the input symbol at that
    position. *)
Theorem encipher_length_positionwise (cipher alphabet : list ascii) :
  length cipher = length alphabet →
  ∃ f : ascii → ascii, ∀ message : list ascii,
    ∃ encMessage : list ascii,
      encipher message cipher alphabet = Ok encMessage ∧
      length encMessage = length message ∧
      ∀ k, encMessage !! k = f <$> message !! k.
Proof.
  intros Hlen.
  destruct (cipherMap_loop_Ok alphabet cipher 0 ∅) as [cm Hcm]; [lia|].
  exists (substitute cm). intros message.
  destruct (encipher_Ok message cipher alphabet) as (cm' & Hcm' & Henc); [lia|].
  assert (cm' = cm) as -> by congruence.
  eexists. split; [exact Henc|]. split.
  - by rewrite length_fmap.
  - intros k. by rewrite list_lookup_fmap.
Qed.

Lemma encipher_length_positionwise_witness :
  length ["b"; "a"]%char = length ["a"; "b"]%char ∧
  ∃ f : ascii → ascii, ∀ message : list ascii,
    ∃ encMessage : list ascii,
      encipher message ["b"; "a"]%char ["a"; "b"]%char = Ok encMessage ∧
      length encMessage = length message ∧
      ∀ k, encMessage !! k = f <$> message !! k.
Proof.
  split; [reflexivity|].
  apply (encipher_length_positionwise ["b"; "a"]%char ["a"; "b"]%char).
  reflexivity.
Defined.

(** C7 (pass-through of unknown symbols): when the target order is at least
    as long as the source order, the codec returns a text of the length of the
    input in which a symbol that is not in [sourceOrder] stands unchanged at
    its position, and a symbol of [sourceOrder] is replaced by the symbol of
    [targetOrder] at the position where it stands in [sourceOrder] (its last
    position, should it stand at several); no exception is raised. *)
Theorem apply_pass_through (text sourceOrder targetOrder : list ascii) :
  (length sourceOrder ≤ length targetOrder)%nat →
  ∃ out : list ascii,
    apply text sourceOrder targetOrder = Ok out ∧
    length out = length text ∧
    ∀ k c, text !! k = Some c →
      (c ∉ sourceOrder → out !! k = Some c) ∧
      (∀ i, sourceOrder !! i = Some c →
            (∀ j, (i < j)%nat → sourceOrder !! j ≠ Some c) →
            is_Some (targetOrder !! i) ∧ out !! k = targetOrder !! i).
Proof.
  intros Hlen. unfold apply.
  destruct (encipher_Ok text targetOrder sourceOrder Hlen) as (cm & Hcm & Henc).
  eexists. split; [exact Henc|]. split; [by rewrite length_fmap|].
  intros k c Hk. rewrite list_lookup_fmap, Hk. simpl. unfold substitute. split.
  - intros Hc. rewrite (cipherMap_loop_notin _ _ _ _ _ _ Hcm Hc).
    by rewrite lookup_empty.
  - intros i Hi Hlast.
    destruct (cipherMap_loop_last _ _ _ _ _ _ _ Hcm Hi Hlast) as [Heq [x Hx]].
    simpl in *. split; [by eexists|]. rewrite Heq, Hx. done.
Qed.

Lemma apply_pass_through_witness :
  (length ["a"; "b"]%char ≤ length ["x"; "y"]%char)%nat ∧
  ∃ out : list ascii,
    apply ["a"; "?"; "b"]%char ["a"; "b"]%char ["x"; "y"]%char = Ok out ∧
    length out = length ["a"; "?"; "b"]%char ∧
    ∀ k c, ["a"; "?"; "b"]%char !! k = Some c →
      (c ∉ ["a"; "b"]%char → out !! k = Some c) ∧
      (∀ i, ["a"; "b"]%char !! i = Some c →
            (∀ j, (i < j)%nat → ["a"; "b"]%char !! j ≠ Some c) →
            is_Some (["x"; "y"]%char !! i) ∧ out !! k = ["x"; "y"]%char !! i).
Proof.
  split; [simpl; lia|].
  apply (apply_pass_through ["a"; "?"; "b"]%char ["a"; "b"]%char ["x"; "y"]%char).
  simpl; lia.
Defined.

(** C3 (codec round trip): for a duplicate-free alphabet, a permutation [P] of
    it and a message of alphabet symbols, enciphering from the alphabet to [P]
    and applying the codec back from [P] to the alphabet returns the
    message. *)
Theorem codec_round_trip (alphabet P message : list ascii) :
  NoDup alphabet → P ≡ₚ alphabet → Forall (λ c, c ∈ alphabet) message →
  ∃ enc : list ascii,
    apply message alphabet P = Ok enc ∧ apply enc P alphabet = Ok message.
Proof.
  intros Hnd Hperm Hmsg. unfold apply.
  assert (length P = length alphabet) as Hlen by by rewrite Hperm.
  assert (NoDup P) as HndP by by rewrite Hperm.
  destruct (encipher_Ok message P alphabet) as (cm1 & Hcm1 & Henc1); [lia|].
  exists (substitute cm1 <$> message). split; [done|].
  destruct (encipher_Ok (substitute cm1 <$> message) alphabet P)
    as (cm2 & Hcm2 & Henc2); [lia|].
  rewrite Henc2. f_equal. rewrite <- list_fmap_compose.
  rewrite <- (list_fmap_id message) at 2.
  apply Forall_fmap_ext_1. eapply Forall_impl; [exact Hmsg|].
  intros c [k Hk]%list_elem_of_lookup. simpl. unfold substitute.
  destruct (cipherMap_loop_last _ _ _ _ _ _ _ Hcm1 Hk) as [Heq1 [x Hx]].
  { by apply NoDup_last_occurrence. }
  simpl in *. rewrite Heq1, Hx. simpl.
  destruct (cipherMap_loop_last _ _ _ _ _ _ _ Hcm2 Hx) as [Heq2 _].
  { by apply NoDup_last_occurrence. }
  simpl in *. by rewrite Heq2, Hk.
Qed.

Lemma codec_round_trip_witness :
  NoDup ["a"; "b"; "c"]%char ∧ ["b"; "c"; "a"]%char ≡ₚ ["a"; "b"; "c"]%char ∧
  Forall (λ c, c ∈ ["a"; "b"; "c"]%char) ["c"; "a"; "b"; "a"]%char ∧
  ∃ enc : list ascii,
    apply ["c"; "a"; "b"; "a"]%char ["a"; "b"; "c"]%char ["b"; "c"; "a"]%char = Ok enc ∧
    apply enc ["b"; "c"; "a"]%char ["a"; "b"; "c"]%char = Ok ["c"; "a"; "b"; "a"]%char.
Proof.
  assert (NoDup ["a"; "b"; "c"]%char) as Hnd
    by decide_closed.
  assert (["b"; "c"; "a"]%char ≡ₚ ["a"; "b"; "c"]%char) as Hperm
    by decide_closed.
  assert (Forall (λ c, c ∈ ["a"; "b"; "c"]%char) ["c"; "a"; "b"; "a"]%char) as Hmsg
    by decide_closed.
  split; [exact Hnd|]. split; [exact Hperm|]. split; [exact Hmsg|].
  exact (codec_round_trip _ _ _ Hnd Hperm Hmsg).
Defined.

(** ** The generators *)

Lemma omap_lookup_seq {A} (l1 l2 : list A) :
  omap (λ p, (l1 ++ l2) !! p) (seq (length l1) (length l2)) = l2.
Proof.
  revert l1. induction l2 as [|x l2 IH]; intros l1; simpl; [done|].
  rewrite list_lookup_middle by done. f_equal.
  specialize (IH (l1 ++ [x])).
  rewrite length_app, <- (assoc_L (++)) in IH. simpl in IH.
  by rewrite Nat.add_1_r in IH.
Qed.

(** A sample of all the positions lists every position once. *)
Lemma sample_ok_all_positions (n : nat) (positions : list nat) :
  sample_ok n n positions → positions ≡ₚ seq 0 n.
Proof.
  intros (Hlen & Hnd & Hlt).
  apply submseteq_length_Permutation.
  - apply NoDup_submseteq; [done|]. intros p Hp.
    rewrite Forall_forall in Hlt. apply elem_of_seq. specialize (Hlt p Hp). lia.
  - rewrite length_seq. lia.
Qed.

Lemma random_sample_all {A} (population : list A) (positions : list nat) :
  sample_ok (length population) (length population) positions →
  ∃ s, random_sample population (length population) positions = Ok s ∧
       s ≡ₚ population.
Proof.
  intros Hok%sample_ok_all_positions. unfold random_sample.
  rewrite decide_False by lia. eexists. split; [done|].
  rewrite Hok. exact (reflexive_eq _ _ (omap_lookup_seq [] population)).
Qed.

(** A sample of two positions is a pair of distinct positions. *)
Lemma sample_ok_two (n : nat) (positions : list nat) :
  sample_ok n 2 positions →
  ∃ i j, positions = [i; j] ∧ i ≠ j ∧ (i < n)%nat ∧ (j < n)%nat.
Proof.
  intros (Hlen & Hnd & Hlt).
  destruct positions as [|i [|j [|? ?]]]; simplify_eq/=.
  exists i, j. apply NoDup_cons in Hnd as [Hij _].
  apply Forall_cons in Hlt as [Hi Hlt]. apply Forall_cons in Hlt as [Hj _].
  split; [done|]. split; [|done]. intros ->. apply Hij. by left.
Qed.

Lemma insert_head_Permutation (l : list ascii) j x a :
  l !! j = Some x → x :: <[j := a]> l ≡ₚ a :: l.
Proof.
  revert j. induction l as [|y l IH]; intros [|j] Hj; simplify_eq/=.
  - apply perm_swap.
  - rewrite (perm_swap y x), (IH _ Hj). apply perm_swap.
Qed.

(** Storing at two positions what the other one held permutes the list. *)
Lemma swap_Permutation (l : list ascii) i j xi xj :
  l !! i = Some xi → l !! j = Some xj →
  <[j := xi]> (<[i := xj]> l) ≡ₚ l.
Proof.
  revert i j. induction l as [|a l IH]; intros [|i] [|j] Hi Hj; simplify_eq/=.
  - done.
  - by apply insert_head_Permutation.
  - by apply insert_head_Permutation.
  - f_equiv. by apply IH.
Qed.

Lemma swapCipher_Ok (cipher : list ascii) (i j : nat) xi xj :
  i ≠ j → cipher !! i = Some xi → cipher !! j = Some xj →
  swapCipher cipher [i; j] = Ok (<[j := xi]> (<[i := xj]> cipher)).
Proof.
  intros Hij Hi Hj. unfold swapCipher, random_sample.
  pose proof (lookup_lt_Some _ _ _ Hi). pose proof (lookup_lt_Some _ _ _ Hj).
  rewrite length_seq, decide_False by lia. cbn.
  rewrite !lookup_seq_lt by done. cbn. by rewrite Hi, Hj.
Qed.

(** C5 (permutation invariant of the generators): on a cipher of length at
    least 2, [swapCipher] run with a sample of two distinct positions [i] and
    [j] returns the cipher with the contents of [i] and [j] exchanged and
    every other position unchanged, a permutation of the cipher; [permuteAlph]
    run with a sample of all the positions returns a permutation of the
    alphabet. *)
Theorem generators_permute (cipher alphabet : list ascii) (positions2 positionsN : list nat) :
  (2 ≤ length cipher)%nat →
  sample_ok (length cipher) 2 positions2 →
  sample_ok (length alphabet) (length alphabet) positionsN →
  (∃ i j (cipherList : list ascii),
     positions2 = [i; j] ∧ i ≠ j ∧
     (i < length cipher)%nat ∧ (j < length cipher)%nat ∧
     swapCipher cipher positions2 = Ok cipherList ∧
     cipherList !! i = cipher !! j ∧
     cipherList !! j = cipher !! i ∧
     (∀ k, k ≠ i → k ≠ j → cipherList !! k = cipher !! k) ∧
     cipherList ≡ₚ cipher) ∧
  (∃ permuted : list ascii,
     permuteAlph alphabet positionsN = Ok permuted ∧ permuted ≡ₚ alphabet).
Proof.
  intros _ Hswap Hall. split.
  - destruct (sample_ok_two _ _ Hswap) as (i & j & -> & Hij & Hi & Hj).
    destruct (lookup_lt_is_Some_2 cipher i Hi) as [xi Hxi].
    destruct (lookup_lt_is_Some_2 cipher j Hj) as [xj Hxj].
    exists i, j, (<[j := xi]> (<[i := xj]> cipher)).
    repeat split; try done.
    + by apply swapCipher_Ok.
    + rewrite list_lookup_insert_ne by done.
      rewrite list_lookup_insert_eq by done. done.
    + rewrite list_lookup_insert_eq by (by rewrite length_insert). done.
    + intros k Hki Hkj. by rewrite !list_lookup_insert_ne by done.
    + by apply swap_Permutation.
  - by apply random_sample_all.
Qed.

Lemma generators_permute_witness :
  (2 ≤ length ["a"; "b"; "c"]%char)%nat ∧
  sample_ok (length ["a"; "b"; "c"]%char) 2 [2; 0]%nat ∧
  sample_ok (length ["a"; "b"; "c"]%char) (length ["a"; "b"; "c"]%char) [1; 2; 0]%nat ∧
  swapCipher ["a"; "b"; "c"]%char [2; 0]%nat = Ok ["c"; "b"; "a"]%char ∧
  permuteAlph ["a"; "b"; "c"]%char [1; 2; 0]%nat = Ok ["b"; "c"; "a"]%char ∧
  ∃ permuted : list ascii,
    permuteAlph ["a"; "b"; "c"]%char [1; 2; 0]%nat = Ok permuted ∧
    permuted ≡ₚ ["a"; "b"; "c"]%char.
Proof.
  assert (2 ≤ length ["a"; "b"; "c"]%char)%nat as Hlen by (simpl; lia).
  assert (sample_ok (length ["a"; "b"; "c"]%char) 2 [2; 0]%nat) as Hswap.
  { split; [reflexivity|]. split.
    - decide_closed.
    - repeat constructor; simpl; lia. }
  assert (sample_ok (length ["a"; "b"; "c"]%char) (length ["a"; "b"; "c"]%char)
            [1; 2; 0]%nat) as Hall.
  { split; [reflexivity|]. split.
    - decide_closed.
    - repeat constructor; simpl; lia. }
  split; [exact Hlen|]. split; [exact Hswap|]. split; [exact Hall|].
  split; [reflexivity|]. split; [reflexivity|].
  exact (proj2 (generators_permute _ _ _ _ Hlen Hswap Hall)).
Defined.

(** C8 (degenerate alphabet), as the code has it: on a cipher of fewer than
    two symbols [swapCipher] returns no cipher and does not loop, whatever the
    draw: the [ValueError] of [random.sample] escapes.  The source checks no
    size and has no condition of its own for it. *)
Theorem swapCipher_degenerate (cipher : list ascii) (positions : list nat) :
  (length cipher < 2)%nat →
  swapCipher cipher positions = Err ValueError.
Proof.
  intros Hlen. unfold swapCipher, random_sample.
  rewrite length_seq. by rewrite decide_True by done.
Qed.

Lemma swapCipher_degenerate_witness :
  (length ["a"]%char < 2)%nat ∧ swapCipher ["a"]%char [0; 0]%nat = Err ValueError.
Proof.
  split; [simpl; lia|].
  apply (swapCipher_degenerate ["a"]%char [0; 0]%nat). simpl; lia.
Defined.

(** C8 with the condition section 7 names fails: on a one-symbol cipher the
    source does not fail with [InvalidAlphabetSize] but with [ValueError], the
    exception that [math.log] raises as well, on a model with a zero entry
    and an alphabet of three symbols. *)
Lemma swapCipher_not_InvalidAlphabetSize :
  observe (swapCipher ["a"]%char [0; 0]%nat) ≠ propose_spec ["a"]%char [0; 0]%nat ∧
  observe (swapCipher ["a"]%char [0; 0]%nat) = Failed (Exception ValueError) ∧
  observe (measure abc ["a"; "b"]%char model_zero abc) = Failed (Exception ValueError).
Proof.
  split; [done|]. split; [done|].
  unfold measure.
  assert (encipher ["a"; "b"]%char abc abc = Ok ["a"; "b"]%char) as -> by reflexivity.
  cbn [mbind result_bind]. unfold logProb_loop. cbn [length Nat.sub seq foldM].
  unfold logProb_step. cbn [lookup list_lookup Nat.add].
  assert (model_zero !! "a"%char = Some {[ "b"%char := 0 ]}) as -> by reflexivity.
  assert (({[ "b"%char := 0 ]} : gmap ascii R) !! "b"%char = Some 0) as ->
    by reflexivity.
  unfold math_log. destruct (Rlt_dec 0 0) as [Hlt|_]; [lra|]. done.
Qed.

(** ** The scorer *)

Lemma positive_model_log_defined M s : positive_model M → log_defined M s.
Proof.
  intros Hpos. apply Forall_forall. intros [a b] _ row v Hrow Hv.
  by apply (Hpos a b row v).
Qed.

Lemma logProb_loop_adjacent M (s : list ascii) :
  logProb_loop M s = foldM (pair_step M) 0 (adjacent s).
Proof.
  refine (index_pairs_loop (logProb_step M) (pair_step M) _ [] s 0).
  intros l acc i a b Ha Hb. unfold logProb_step. by rewrite Ha, Hb.
Qed.

Lemma pair_step_Ok M (acc : R) (p : ascii * ascii) :
  (∀ row v, M !! p.1 = Some row → row !! p.2 = Some v → 0 < v) →
  pair_step M acc p = Ok (acc + pair_term M p).
Proof.
  intros Hp. unfold pair_step, pair_term.
  destruct (M !! p.1) as [row|]; cbn; [|f_equal; lra].
  destruct (row !! p.2) as [v|] eqn:Hv; [|f_equal; lra].
  unfold math_log. destruct (Rlt_dec 0 v) as [|Hn]; [done|].
  destruct Hn. by apply (Hp row).
Qed.

Lemma pair_step_value M (acc acc' : R) (p : ascii * ascii) :
  pair_step M acc p = Ok acc' → acc' = acc + pair_term M p.
Proof.
  unfold pair_step, pair_term.
  destruct (M !! p.1) as [row|]; cbn; [|intros [= <-]; lra].
  destruct (row !! p.2) as [v|]; [|intros [= <-]; lra].
  unfold math_log. destruct (Rlt_dec 0 v); cbn; [|done].
  by intros [= <-].
Qed.

Lemma pair_fold_value M (ps : list (ascii * ascii)) (acc v : R) :
  foldM (pair_step M) acc ps = Ok v →
  v = acc + foldr (λ p r, pair_term M p + r) 0 ps.
Proof.
  revert acc. induction ps as [|p ps IH]; intros acc; cbn [foldM foldr].
  - intros [= <-]. lra.
  - rewrite bind_Ok. intros (acc' & ->%pair_step_value & ->%IH). lra.
Qed.

Lemma pair_fold_Ok M (ps : list (ascii * ascii)) (acc : R) :
  Forall (λ p, ∀ row v, M !! p.1 = Some row → row !! p.2 = Some v → 0 < v) ps →
  is_Ok (foldM (pair_step M) acc ps).
Proof.
  intros Hps. revert acc. induction Hps as [|p ps Hp _ IH]; intros acc;
    cbn [foldM].
  - by eexists.
  - rewrite (pair_step_Ok _ _ _ Hp). apply IH.
Qed.

(** The loop returns the score of the text, as soon as the logarithms it needs
    are defined; and whatever it returns is that score. *)
Lemma logProb_loop_Ok M (s : list ascii) :
  log_defined M s → logProb_loop M s = Ok (score_sum M s).
Proof.
  intros Hdef. rewrite logProb_loop_adjacent.
  destruct (pair_fold_Ok M (adjacent s) 0 Hdef) as [v Hv].
  rewrite Hv. f_equal. apply pair_fold_value in Hv. unfold score_sum. lra.
Qed.

Lemma logProb_loop_value M (s : list ascii) (v : R) :
  logProb_loop M s = Ok v → v = score_sum M s.
Proof.
  rewrite logProb_loop_adjacent. intros ->%pair_fold_value.
  unfold score_sum. lra.
Qed.

Lemma positive_model_abc : positive_model model_abc.
Proof.
  intros a b row v Ha%elem_of_list_to_map_2 Hb.
  repeat (apply elem_of_cons in Ha as [[= -> ->]|Ha]);
    try (by apply elem_of_nil in Ha);
    repeat (apply lookup_insert_Some in Hb as [[_ <-]|[_ Hb]]; [lra|]);
    by rewrite lookup_empty in Hb.
Qed.

Lemma measure_unfold (cipher encipheredMessage : list ascii) M (alphabet : list ascii) v :
  measure cipher encipheredMessage M alphabet = Ok v ↔
  ∃ unscrambled, encipher encipheredMessage alphabet cipher = Ok unscrambled ∧
                 logProb_loop M unscrambled = Ok v.
Proof. unfold measure. apply bind_Ok. Qed.

Lemma measure_Ok (cipher encipheredMessage : list ascii) M (alphabet : list ascii) :
  (length cipher ≤ length alphabet)%nat → positive_model M →
  ∃ decoded, encipher encipheredMessage alphabet cipher = Ok decoded ∧
    measure cipher encipheredMessage M alphabet = Ok (score_sum M decoded).
Proof.
  intros Hlen Hpos.
  destruct (encipher_Ok encipheredMessage alphabet cipher Hlen) as (cm & _ & Henc).
  eexists. split; [exact Henc|]. unfold measure. rewrite Henc. cbn.
  apply logProb_loop_Ok. by apply positive_model_log_defined.
Qed.

(** C4 (scorer definition), as the code has it: for a permutation no longer
    than the alphabet and a model of positive entries, [measure] returns the
    sum of [ln (M[s_i][s_(i+1)])] over the adjacent pairs of the text decoded
    by the codec from the permutation to the alphabet (the symbol at a
    position of the permutation becomes the alphabet symbol at that position);
    a pair for which the model has no entry adds exactly 0.  [measure] takes
    no random draw: it is a function of its four arguments. *)
Theorem measure_is_score (permutation encipheredMessage : list ascii)
    (M : gmap ascii (gmap ascii R)) (alphabet : list ascii) :
  (length permutation ≤ length alphabet)%nat → positive_model M →
  ∃ decoded : list ascii,
    apply encipheredMessage permutation alphabet = Ok decoded ∧
    measure permutation encipheredMessage M alphabet = Ok (score_sum M decoded) ∧
    ∀ a b, M !! a ≫= (λ row, row !! b) = None → pair_term M (a, b) = 0.
Proof.
  intros Hlen Hpos.
  destruct (measure_Ok permutation encipheredMessage M alphabet Hlen Hpos)
    as (decoded & Hdec & Hm).
  exists decoded. split; [exact Hdec|]. split; [exact Hm|].
  intros a b Hab. unfold pair_term. cbn. by rewrite Hab.
Qed.

Lemma measure_is_score_witness :
  (length bca ≤ length abc)%nat ∧ positive_model model_abc ∧
  apply ["a"; "b"]%char bca abc = Ok ["c"; "a"]%char ∧
  ∃ decoded : list ascii,
    apply ["a"; "b"]%char bca abc = Ok decoded ∧
    measure bca ["a"; "b"]%char model_abc abc = Ok (score_sum model_abc decoded) ∧
    ∀ a b, model_abc !! a ≫= (λ row, row !! b) = None →
           pair_term model_abc (a, b) = 0.
Proof.
  assert (length bca ≤ length abc)%nat as Hlen by (simpl; lia).
  split; [exact Hlen|]. split; [exact positive_model_abc|].
  split; [reflexivity|].
  exact (measure_is_score bca ["a"; "b"]%char model_abc abc Hlen positive_model_abc).
Defined.

(** C4 with the substitution running from the alphabet to the permutation,
    as section 4.4 words it, fails: with the key [b, c, a] the message "ab" is
    decoded by the source to "ca", of score [ln (1/2)], while the codec from
    the alphabet to the key gives "bc", of score [ln (1/16)]. *)
Lemma measure_not_score_spec :
  measure bca ["a"; "b"]%char model_abc abc ≠
  score_spec bca ["a"; "b"]%char model_abc abc.
Proof.
  destruct (measure_Ok bca ["a"; "b"]%char model_abc abc) as (decoded & Hdec & ->);
    [simpl; lia | exact positive_model_abc |].
  assert (decoded = ["c"; "a"]%char) as ->.
  { assert (encipher ["a"; "b"]%char abc bca = Ok ["c"; "a"]%char) as Hc
      by reflexivity.
    congruence. }
  assert (score_spec bca ["a"; "b"]%char model_abc abc =
          Ok (score_sum model_abc ["b"; "c"]%char)) as -> by reflexivity.
  assert (score_sum model_abc ["c"; "a"]%char = ln (1/2) + 0) as -> by reflexivity.
  assert (score_sum model_abc ["b"; "c"]%char = ln (1/16) + 0) as -> by reflexivity.
  intros [= Heq].
  assert (ln (1/2) = ln (1/16)) as Hln by lra.
  apply ln_inv in Hln; lra.
Qed.

(** ** The acceptance probability *)

Lemma acceptProb_unfold (X Y encipheredMessage : list ascii) M (alphabet : list ascii)
    ux uy lx ly :
  encipher encipheredMessage alphabet X = Ok ux →
  encipher encipheredMessage alphabet Y = Ok uy →
  logProb_loop M ux = Ok lx →
  logProb_loop M uy = Ok ly →
  acceptProb X Y encipheredMessage M alphabet =
    Ok (if Rlt_dec 0 (ly - lx) then 1 else exp (ly - lx)).
Proof.
  intros Hx Hy Hlx Hly. unfold acceptProb.
  rewrite Hx, Hy. cbn. rewrite Hlx, Hly. cbn.
  by destruct (Rlt_dec 0 (ly - lx)).
Qed.

Lemma acceptProb_inv (X Y encipheredMessage : list ascii) M (alphabet : list ascii) a :
  acceptProb X Y encipheredMessage M alphabet = Ok a →
  ∃ ux uy lx ly,
    encipher encipheredMessage alphabet X = Ok ux ∧
    encipher encipheredMessage alphabet Y = Ok uy ∧
    logProb_loop M ux = Ok lx ∧ logProb_loop M uy = Ok ly.
Proof.
  unfold acceptProb.
  intros (ux & Hx & (uy & Hy & (lx & Hlx & (ly & Hly & _)%bind_Ok)%bind_Ok)%bind_Ok)%bind_Ok.
  by exists ux, uy, lx, ly.
Qed.

(** The test [diff > 0] of line 180 and the test [diff ≥ 0] of section 4.5
    choose the same value, since [exp 0 = 1]. *)
Lemma acceptance_test_equiv (diff : R) :
  (if Rlt_dec 0 diff then 1 else exp diff) =
  (if Rle_dec 0 diff then 1 else exp diff).
Proof.
  destruct (Rlt_dec 0 diff), (Rle_dec 0 diff); try lra.
  assert (diff = 0) as -> by lra. apply exp_0.
Qed.

(** [acceptProb] on the scores [measure] returns, with the test of line 180. *)
Lemma acceptProb_measure_value (X Y encipheredMessage : list ascii) M
    (alphabet : list ascii) (scoreX scoreY : R) :
  measure X encipheredMessage M alphabet = Ok scoreX →
  measure Y encipheredMessage M alphabet = Ok scoreY →
  acceptProb X Y encipheredMessage M alphabet =
    Ok (if Rlt_dec 0 (scoreY - scoreX) then 1 else exp (scoreY - scoreX)).
Proof.
  intros (ux & Hx & Hlx)%measure_unfold (uy & Hy & Hly)%measure_unfold.
  apply (acceptProb_unfold _ _ _ _ _ _ _ _ _ Hx Hy Hlx Hly).
Qed.

(** C6 (scorer/acceptance equivalence): when [measure] returns a score for [X]
    and for [Y], [acceptProb] returns the value the acceptance rule of section
    4.5 gives on these two scores: 1 if the score of [Y] minus the score of
    [X] is at least 0, the exponential of that difference otherwise. *)
Theorem acceptProb_from_measure (X Y encipheredMessage : list ascii)
    (M : gmap ascii (gmap ascii R)) (alphabet : list ascii) (scoreX scoreY : R) :
  measure X encipheredMessage M alphabet = Ok scoreX →
  measure Y encipheredMessage M alphabet = Ok scoreY →
  acceptProb X Y encipheredMessage M alphabet =
    Ok (acceptanceProbability_rule scoreX scoreY).
Proof.
  intros Hx Hy. rewrite (acceptProb_measure_value _ _ _ _ _ _ _ Hx Hy).
  unfold acceptanceProbability_rule. by rewrite acceptance_test_equiv.
Qed.

Lemma acceptProb_from_measure_witness :
  measure abc ["a"; "b"]%char model_abc abc = Ok (score_sum model_abc ["a"; "b"]%char) ∧
  measure bca ["a"; "b"]%char model_abc abc = Ok (score_sum model_abc ["c"; "a"]%char) ∧
  acceptProb abc bca ["a"; "b"]%char model_abc abc =
    Ok (acceptanceProbability_rule (score_sum model_abc ["a"; "b"]%char)
                                   (score_sum model_abc ["c"; "a"]%char)).
Proof.
  assert (measure abc ["a"; "b"]%char model_abc abc =
          Ok (score_sum model_abc ["a"; "b"]%char)) as Hx.
  { apply measure_unfold. exists ["a"; "b"]%char. split; [reflexivity|].
    apply logProb_loop_Ok, positive_model_log_defined, positive_model_abc. }
  assert (measure bca ["a"; "b"]%char model_abc abc =
          Ok (score_sum model_abc ["c"; "a"]%char)) as Hy.
  { apply measure_unfold. exists ["c"; "a"]%char. split; [reflexivity|].
    apply logProb_loop_Ok, positive_model_log_defined, positive_model_abc. }
  split; [exact Hx|]. split; [exact Hy|].
  exact (acceptProb_from_measure abc bca ["a"; "b"]%char model_abc abc _ _ Hx Hy).
Defined.

(** [acceptProb] returns a value exactly when [measure] does on both
    ciphers. *)
Lemma acceptProb_is_Ok (X Y encipheredMessage : list ascii) M (alphabet : list ascii) :
  is_Ok (acceptProb X Y encipheredMessage M alphabet) ↔
  is_Ok (measure X encipheredMessage M alphabet) ∧
  is_Ok (measure Y encipheredMessage M alphabet).
Proof.
  split.
  - intros [a (ux & uy & lx & ly & Hx & Hy & Hlx & Hly)%acceptProb_inv]. split.
    + exists lx. apply measure_unfold. eauto.
    + exists ly. apply measure_unfold. eauto.
  - intros [[sx Hsx] [sy Hsy]]. eexists.
    by apply acceptProb_measure_value.
Qed.

(** ** Double-precision arithmetic *)

Lemma Zfloor_bounds (x : R) : IZR (Zfloor x) <= x < IZR (Zfloor x) + 1.
Proof.
  unfold Zfloor. rewrite minus_IZR. destruct (archimed x). lra.
Qed.

Lemma Zfloor_unique (x : R) (n : Z) : IZR n <= x < IZR n + 1 → Zfloor x = n.
Proof.
  intros [Hl Hu]. destruct (Zfloor_bounds x) as [Hl' Hu'].
  assert (IZR (Zfloor x) < IZR (n + 1)) as H1 by (rewrite plus_IZR; lra).
  assert (IZR n < IZR (Zfloor x + 1)) as H2 by (rewrite plus_IZR; lra).
  apply lt_IZR in H1, H2. lia.
Qed.

Lemma ZnearestE_error (x : R) : Rabs (IZR (ZnearestE x) - x) <= 1/2.
Proof.
  unfold ZnearestE. destruct (Zfloor_bounds x) as [Hl Hu].
  repeat destruct (Rlt_dec _ _); try destruct (Z.even _);
    rewrite ?plus_IZR; apply Rabs_le; lra.
Qed.

Lemma ZnearestE_IZR (n : Z) : ZnearestE (IZR n) = n.
Proof.
  unfold ZnearestE. rewrite (Zfloor_unique (IZR n) n) by lra.
  destruct (Rlt_dec _ _); [done|lra].
Qed.

Lemma ZnearestE_bounds (x : R) (a b : Z) :
  IZR a <= x <= IZR b → (a ≤ ZnearestE x ≤ b)%Z.
Proof.
  intros [Ha Hb]. destruct (Zfloor_bounds x) as [Hl Hu].
  assert (a ≤ Zfloor x)%Z as Hfa.
  { assert (IZR a < IZR (Zfloor x + 1)) as H by (rewrite plus_IZR; lra).
    apply lt_IZR in H. lia. }
  assert (Zfloor x ≤ b)%Z as Hfb by (apply le_IZR; lra).
  unfold ZnearestE. destruct (Rlt_dec _ _) as [|Hn]; [lia|].
  assert (Zfloor x ≠ b).
  { intros Heq. rewrite Heq in Hn. lra. }
  destruct (Rlt_dec _ _); [lia|]. destruct (Z.even _); lia.
Qed.

Lemma powerRZ_2_exp (k : Z) : powerRZ 2 k = exp (IZR k * ln 2).
Proof. rewrite powerRZ_Rpower by lra. done. Qed.

Lemma powerRZ_2_cancel (k : Z) : powerRZ 2 (- k) * powerRZ 2 k = 1.
Proof.
  rewrite <- powerRZ_add by lra. by replace (- k + k)%Z with 0%Z by lia.
Qed.

Lemma ln_2_bounds : / 2 < ln 2 < 1.
Proof.
  split; [apply ln_lt_2|].
  rewrite <- (ln_exp 1). apply ln_increasing; [lra|].
  pose proof (exp_ineq1 1). lra.
Qed.

(** Where the exponent lies. *)
Lemma mag_le (x : R) (k : Z) :
  x ≠ 0 → ln (Rabs x) < IZR k * ln 2 → (mag x ≤ k)%Z.
Proof.
  intros Hx Hln. unfold mag. pose proof ln_2_bounds as [H2 _].
  destruct (Zfloor_bounds (ln (Rabs x) / ln 2)) as [Hl _].
  assert (ln (Rabs x) / ln 2 < IZR k) as Hk.
  { apply (Rmult_lt_reg_r (ln 2)); [lra|].
    unfold Rdiv. rewrite Rmult_assoc, Rinv_l by lra. lra. }
  assert (IZR (Zfloor (ln (Rabs x) / ln 2)) < IZR k) as H by lra.
  apply lt_IZR in H. lia.
Qed.

(** Below [2^53] the binary64 numbers are at most 1 apart. *)
Lemma round64_error (x : R) :
  Rabs x < powerRZ 2 53 → Rabs (round64 x - x) <= 1/2.
Proof.
  intros Hx. unfold round64. destruct (Req_dec_T x 0) as [->|Hne].
  { rewrite Rminus_diag, Rabs_R0. lra. }
  assert (mag x ≤ 53)%Z as Hmag.
  { apply mag_le; [done|]. rewrite <- (ln_exp (IZR 53 * ln 2)).
    apply ln_increasing; [by apply Rabs_pos_lt|]. by rewrite <- powerRZ_2_exp. }
  set (e := fexp64 (mag x)).
  assert (e ≤ 0)%Z as He by (unfold e, fexp64; lia).
  assert (0 < powerRZ 2 e <= 1) as [Hpos Hle].
  { split; [apply powerRZ_lt; lra|].
    rewrite powerRZ_2_exp, <- exp_0. pose proof ln_2_bounds.
    destruct (Z.eq_dec e 0%Z) as [->|]; [rewrite Rmult_0_l; lra|].
    left. apply exp_increasing.
    assert (IZR e <= IZR (-1)) by (apply IZR_le; lia). nra. }
  pose proof (ZnearestE_error (x * powerRZ 2 (- e))) as Herr.
  replace (IZR (ZnearestE (x * powerRZ 2 (- e))) * powerRZ 2 e - x)
    with ((IZR (ZnearestE (x * powerRZ 2 (- e))) - x * powerRZ 2 (- e))
          * powerRZ 2 e).
  - rewrite Rabs_mult, (Rabs_pos_eq (powerRZ 2 e)) by lra.
    pose proof (Rabs_pos (IZR (ZnearestE (x * powerRZ 2 (- e))) - x * powerRZ 2 (- e))).
    nra.
  - rewrite Rmult_minus_distr_r, Rmult_assoc, powerRZ_2_cancel. lra.
Qed.

(** Below half the smallest positive binary64 number, everything rounds to
    zero. *)
Lemma round64_underflow (y : R) :
  0 <= y → y < powerRZ 2 (-1075) → round64 y = 0.
Proof.
  intros Hy Hlt. unfold round64. destruct (Req_dec_T y 0) as [|Hne]; [done|].
  assert (0 < y) as Hpos by lra.
  assert (mag y ≤ -1075)%Z as Hmag.
  { apply mag_le; [done|]. rewrite Rabs_pos_eq by lra.
    rewrite <- (ln_exp (IZR (-1075) * ln 2)).
    apply ln_increasing; [done|]. by rewrite <- powerRZ_2_exp. }
  assert (fexp64 (mag y) = (-1074)%Z) as -> by (unfold fexp64; lia).
  assert (0 < y * powerRZ 2 (- -1074) < 1/2) as [Hz0 Hz].
  { assert (0 < powerRZ 2 (- -1074)) as Hp by (apply powerRZ_lt; lra).
    split; [by apply Rmult_lt_0_compat|].
    apply (Rlt_le_trans _ (powerRZ 2 (-1075) * powerRZ 2 (- -1074))).
    - by apply Rmult_lt_compat_r.
    - rewrite <- powerRZ_add by lra. simpl. lra. }
  assert (ZnearestE (y * powerRZ 2 (- -1074)) = 0%Z) as ->.
  { unfold ZnearestE. rewrite (Zfloor_unique _ 0) by lra.
    destruct (Rlt_dec _ _); [done|lra]. }
  lra.
Qed.

Lemma round64_1 : round64 1 = 1.
Proof.
  unfold round64. destruct (Req_dec_T 1 0) as [|_]; [lra|].
  assert (mag 1 = 1%Z) as ->.
  { unfold mag. rewrite Rabs_R1, ln_1. unfold Rdiv. rewrite Rmult_0_l.
    by rewrite (Zfloor_unique 0 0) by lra. }
  change (fexp64 1) with (-52)%Z. rewrite Rmult_1_l.
  change (- -52)%Z with 52%Z.
  assert (powerRZ 2 52 = IZR (2 ^ 52)) as ->.
  { change 52%Z with (Z.of_nat 52). rewrite <- pow_IZR. by rewrite <- pow_powerRZ. }
  rewrite ZnearestE_IZR.
  change (2 ^ Z.of_nat 52)%Z with (2 ^ 52)%Z.
  assert (IZR (2 ^ 52) = powerRZ 2 52) as ->.
  { change 52%Z with (Z.of_nat 52). rewrite <- pow_IZR. by rewrite <- pow_powerRZ. }
  rewrite Rmult_comm. apply (powerRZ_2_cancel 52).
Qed.

Lemma powerRZ_2_IZR (k : Z) : (0 ≤ k)%Z → powerRZ 2 k = IZR (2 ^ k).
Proof.
  intros Hk. rewrite <- (Z2Nat.id k Hk) at 1 2.
  by rewrite <- pow_IZR, <- pow_powerRZ.
Qed.

(** Rounding keeps a number of the unit interval in the unit interval. *)
Lemma round64_unit (y : R) : 0 <= y <= 1 → 0 <= round64 y <= 1.
Proof.
  intros [Hy0 Hy1].
  destruct (Req_dec_T y 1) as [->|Hne1]; [rewrite round64_1; lra|].
  unfold round64. destruct (Req_dec_T y 0) as [|Hne0]; [lra|].
  assert (mag y ≤ 0)%Z as Hmag.
  { apply mag_le; [done|]. rewrite Rabs_pos_eq, Rmult_0_l by lra.
    rewrite <- ln_1. apply ln_increasing; lra. }
  set (f := fexp64 (mag y)).
  assert (f ≤ 0)%Z as Hf by (unfold f, fexp64; lia).
  assert (0 < powerRZ 2 f) as Hpf by (apply powerRZ_lt; lra).
  rewrite (powerRZ_2_IZR (- f)) by lia.
  assert (0 <= IZR (2 ^ (- f))) as Hpn.
  { rewrite <- powerRZ_2_IZR by lia. apply powerRZ_le. lra. }
  destruct (ZnearestE_bounds (y * IZR (2 ^ (- f))) 0 (2 ^ (- f))) as [Hn0 Hn1].
  { split; nra. }
  apply IZR_le in Hn0, Hn1. split; [nra|].
  apply (Rle_trans _ (IZR (2 ^ (- f)) * powerRZ 2 f)); [nra|].
  rewrite <- powerRZ_2_IZR by lia. rewrite powerRZ_2_cancel. lra.
Qed.

Lemma round64_0 : round64 0 = 0.
Proof. unfold round64. by destruct (Req_dec_T 0 0). Qed.

(** Up to 10000 in absolute value, rounding moves a number by 1/2 at most. *)
Lemma round64_near (x lo hi : R) :
  -10000 <= lo → hi <= 10000 → lo <= x <= hi →
  lo - 1/2 <= round64 x <= hi + 1/2.
Proof.
  intros Hlo Hhi [Hl Hh].
  assert (Rabs x < powerRZ 2 53) as Hx.
  { rewrite (powerRZ_2_IZR 53) by lia.
    replace (2 ^ 53)%Z with 9007199254740992%Z by reflexivity.
    apply Rabs_def1; lra. }
  pose proof (round64_error x Hx) as Herr.
  unfold Rabs in Herr. destruct (Rcase_abs (round64 x - x)); lra.
Qed.

(** The correctly rounded library keeps the laws. *)
Lemma correctly_rounded_laws : LibmLaws correctly_rounded.
Proof.
  split; cbn.
  - rewrite exp_0. apply round64_1.
  - intros x Hx. apply round64_unit. split; [left; apply exp_pos|].
    rewrite <- exp_0. destruct (Req_dec x 0) as [->|Hne]; [lra|].
    left. apply exp_increasing. lra.
Qed.

(** ** The acceptance probability in double precision *)

Lemma logProb_loop64_adjacent {L : Libm} M (s : list ascii) :
  logProb_loop64 M s = foldM (pair_step64 M) 0 (adjacent s).
Proof.
  refine (index_pairs_loop (logProb_step64 M) (pair_step64 M) _ [] s 0).
  intros l acc i a b Ha Hb. unfold logProb_step64. by rewrite Ha, Hb.
Qed.

Lemma pair_step64_entry {L : Libm} M (acc : R) (p : ascii * ascii) (v : R) :
  M !! p.1 ≫= (λ row, row !! p.2) = Some v → 0 < v →
  pair_step64 M acc p = Ok (fl_add acc (libm_log v)).
Proof.
  intros Hv Hpos. unfold pair_step64.
  destruct (M !! p.1) as [row|]; cbn in Hv; [|done]. rewrite Hv.
  unfold math_log64. by destruct (Rlt_dec 0 v).
Qed.

Lemma acceptProb64_unfold {L : Libm} (X Y encipheredMessage : list ascii) M
    (alphabet : list ascii) ux uy lx ly :
  encipher encipheredMessage alphabet X = Ok ux →
  encipher encipheredMessage alphabet Y = Ok uy →
  logProb_loop64 M ux = Ok lx →
  logProb_loop64 M uy = Ok ly →
  acceptProb64 X Y encipheredMessage M alphabet =
    Ok (if Rlt_dec 0 (fl_sub ly lx) then 1 else libm_exp (fl_sub ly lx)).
Proof.
  intros Hx Hy Hlx Hly. unfold acceptProb64.
  rewrite Hx, Hy. cbn. rewrite Hlx, Hly. cbn.
  by destruct (Rlt_dec 0 (fl_sub ly lx)).
Qed.

(** C2 (acceptance rule), as the code has it in double precision: when both
    decodings and both log-likelihoods are defined, with [diff] the float
    difference of the log-likelihood of [Y]'s decoding and that of [X]'s,
    [acceptProb] returns 1 if [diff ≥ 0] and [math.exp(diff)] otherwise, a
    value between 0 and 1, both included.  It holds for every C library whose
    [math.exp] keeps [LibmLaws]. *)
Theorem acceptProb64_rule {L : Libm} (laws : LibmLaws L)
    (X Y encipheredMessage : list ascii) (M : gmap ascii (gmap ascii R))
    (alphabet : list ascii) (unscrambledX unscrambledY : list ascii)
    (logProbX logProbY : R) :
  encipher encipheredMessage alphabet X = Ok unscrambledX →
  encipher encipheredMessage alphabet Y = Ok unscrambledY →
  logProb_loop64 M unscrambledX = Ok logProbX →
  logProb_loop64 M unscrambledY = Ok logProbY →
  ∃ acceptanceProbability : R,
    acceptProb64 X Y encipheredMessage M alphabet = Ok acceptanceProbability ∧
    (0 <= fl_sub logProbY logProbX → acceptanceProbability = 1) ∧
    (fl_sub logProbY logProbX < 0 →
       acceptanceProbability = libm_exp (fl_sub logProbY logProbX)) ∧
    0 <= acceptanceProbability <= 1.
Proof.
  intros Hx Hy Hlx Hly.
  eexists. split; [by apply (acceptProb64_unfold _ _ _ _ _ _ _ _ _ Hx Hy Hlx Hly)|].
  destruct (Rlt_dec 0 (fl_sub logProbY logProbX)) as [Hpos|Hneg].
  - split; [done|]. split; [lra|lra].
  - split; [|split; [done|apply libm_exp_range; lra]].
    intros Hdiff. assert (fl_sub logProbY logProbX = 0) as -> by lra.
    apply libm_exp_0.
Qed.

(** The two log-likelihoods of the message "aaaa" under [model_underflow]:
    read with the key [a, b, c] it is "aaaa", with [c, b, a] it is "cccc". *)
Lemma logProb64_aaaa :
  logProb_loop64 (L := correctly_rounded) model_underflow ["a"; "a"; "a"; "a"]%char =
  Ok (fl_add (fl_add (fl_add 0 (round64 (ln (9/16)))) (round64 (ln (9/16))))
             (round64 (ln (9/16)))).
Proof.
  rewrite logProb_loop64_adjacent. cbn [adjacent foldM].
  repeat (rewrite (pair_step64_entry model_underflow _ ("a", "a")%char (9/16)
                     eq_refl) by lra; cbn [mbind result_bind]).
  done.
Qed.

Lemma logProb64_cccc :
  logProb_loop64 (L := correctly_rounded) model_underflow ["c"; "c"; "c"; "c"]%char =
  Ok (fl_add (fl_add (fl_add 0 (round64 (ln (powerRZ 2 (-1000)))))
                     (round64 (ln (powerRZ 2 (-1000)))))
             (round64 (ln (powerRZ 2 (-1000))))).
Proof.
  assert (0 < powerRZ 2 (-1000)) as Hpos by (apply powerRZ_lt; lra).
  rewrite logProb_loop64_adjacent. cbn [adjacent foldM].
  repeat (rewrite (pair_step64_entry model_underflow _ ("c", "c")%char
                     (powerRZ 2 (-1000)) eq_refl) by done;
          cbn [mbind result_bind]).
  done.
Qed.

Lemma acceptProb64_rule_witness :
  LibmLaws correctly_rounded ∧
  encipher ["a"; "a"; "a"; "a"]%char abc abc = Ok ["a"; "a"; "a"; "a"]%char ∧
  encipher ["a"; "a"; "a"; "a"]%char abc cba = Ok ["c"; "c"; "c"; "c"]%char ∧
  ∃ acceptanceProbability : R,
    acceptProb64 (L := correctly_rounded) abc cba ["a"; "a"; "a"; "a"]%char
      model_underflow abc = Ok acceptanceProbability ∧
    0 <= acceptanceProbability <= 1.
Proof.
  assert (encipher ["a"; "a"; "a"; "a"]%char abc abc = Ok ["a"; "a"; "a"; "a"]%char)
    as Hx by reflexivity.
  assert (encipher ["a"; "a"; "a"; "a"]%char abc cba = Ok ["c"; "c"; "c"; "c"]%char)
    as Hy by reflexivity.
  split; [exact correctly_rounded_laws|]. split; [exact Hx|]. split; [exact Hy|].
  destruct (acceptProb64_rule correctly_rounded_laws abc cba
              ["a"; "a"; "a"; "a"]%char model_underflow abc _ _ _ _
              Hx Hy logProb64_aaaa logProb64_cccc)
    as (a & Ha & _ & _ & Hrange).
  exists a. split; [exact Ha|exact Hrange].
Defined.

(** C2 with the open bound at 0 fails: the key [c, b, a] reads "aaaa" as
    "cccc", whose log-likelihood is about -2079; the difference to the
    current key is far below the logarithm of the smallest positive float,
    [math.exp] underflows and [acceptProb] returns 0. *)
Lemma acceptProb64_underflow :
  acceptProb64 (L := correctly_rounded) abc cba ["a"; "a"; "a"; "a"]%char
    model_underflow abc = Ok 0.
Proof.
  assert (encipher ["a"; "a"; "a"; "a"]%char abc abc = Ok ["a"; "a"; "a"; "a"]%char)
    as Hx by reflexivity.
  assert (encipher ["a"; "a"; "a"; "a"]%char abc cba = Ok ["c"; "c"; "c"; "c"]%char)
    as Hy by reflexivity.
  rewrite (acceptProb64_unfold (L := correctly_rounded) abc cba _ _ _ _ _ _ _
             Hx Hy logProb64_aaaa logProb64_cccc).
  pose proof ln_2_bounds as [Hln2 Hln2'].
  assert (-1 < ln (9/16) < 0) as [Ha Ha'].
  { split.
    - rewrite <- (ln_exp (-1)). apply ln_increasing; [apply exp_pos|].
      replace (-1) with (- (1)) by lra. rewrite exp_Ropp.
      pose proof (exp_ineq1 1).
      assert (/ exp 1 < / 2); [apply Rinv_lt_contravar|]; lra.
    - rewrite <- ln_1. apply ln_increasing; lra. }
  assert (ln (powerRZ 2 (-1000)) = -1000 * ln 2) as Hc.
  { by rewrite powerRZ_2_exp, ln_exp. }
  unfold fl_add, fl_sub.
  set (la := round64 (ln (9/16))). set (lc := round64 (ln (powerRZ 2 (-1000)))).
  pose proof (round64_near (ln (9/16)) (-1) 0) as Hla. fold la in Hla.
  pose proof (round64_near (ln (powerRZ 2 (-1000))) (-1000) (-500)) as Hlc.
  fold lc in Hlc. rewrite Hc in Hlc.
  pose proof (round64_near (0 + la) (-3/2) (1/2)) as Hs1.
  set (s1 := round64 (0 + la)) in *.
  pose proof (round64_near (s1 + la) (-7/2) (3/2)) as Hs2.
  set (s2 := round64 (s1 + la)) in *.
  pose proof (round64_near (s2 + la) (-11/2) (5/2)) as Hs3.
  set (s3 := round64 (s2 + la)) in *.
  pose proof (round64_near (0 + lc) (-2001/2) (-999/2)) as Ht1.
  set (t1 := round64 (0 + lc)) in *.
  pose proof (round64_near (t1 + lc) (-2002 - 1/2) (-998 - 1/2)) as Ht2.
  set (t2 := round64 (t1 + lc)) in *.
  pose proof (round64_near (t2 + lc) (-3004) (-1497 - 1/2)) as Ht3.
  set (t3 := round64 (t2 + lc)) in *.
  pose proof (round64_near (t3 - s3) (-3008) (-1491)) as Hd.
  set (diff := round64 (t3 - s3)) in *.
  assert (diff <= -1490) as Hdiff by lra.
  destruct (Rlt_dec 0 diff) as [|_]; [lra|]. f_equal. cbn.
  apply round64_underflow; [left; apply exp_pos|].
  rewrite powerRZ_2_exp. apply exp_increasing. lra.
Qed.

(** ** The search loop *)

Section search_loop.
Variables (alphabet encipheredMessage : list ascii).
Variable M : gmap ascii (gmap ascii R).
Variable draws : nat → draw.

(** One more iteration is one more step. *)
Lemma mh_run_S init n :
  mh_run alphabet encipheredMessage M init draws (S n) =
  (st ← mh_run alphabet encipheredMessage M init draws n;
   mh_step encipheredMessage M alphabet draws st n).
Proof.
  unfold mh_run. rewrite bind_assoc, seq_S.
  destruct (permuteAlph alphabet init) as [initial|e]; [|done].
  cbn -[seq]. rewrite foldM_app.
  destruct (foldM _ _ (seq 0 n)) as [st|e]; [|done].
  cbn. by destruct (mh_step encipheredMessage M alphabet draws st n).
Qed.

(** A step that completes keeps the best cipher at least as good as the
    current one, and never makes it worse. *)
Lemma mh_step_invariant st i st' :
  best_dominates encipheredMessage M alphabet st →
  mh_step encipheredMessage M alphabet draws st i = Ok st' →
  ∃ sc' sb sb',
    measure (currCipher st') encipheredMessage M alphabet = Ok sc' ∧
    measure (bestRevCipher st') encipheredMessage M alphabet = Ok sb' ∧
    measure (bestRevCipher st) encipheredMessage M alphabet = Ok sb ∧
    sc' <= sb' ∧ sb <= sb'.
Proof.
  intros Hdom. unfold mh_step.
  intros (next & Hnext & (a & Ha & Hbody)%bind_Ok)%bind_Ok.
  assert (is_Ok (acceptProb (currCipher st) next encipheredMessage M alphabet))
    as [[sc Hsc] [sn Hsn]]%acceptProb_is_Ok by by eexists.
  destruct (Hdom sc Hsc) as (sb & Hsb & Hle).
  destruct (Rgt_dec a (uniform (draws i))) as [_|_].
  - rewrite Hsn, Hsb in Hbody. cbn in Hbody.
    destruct (Rgt_dec sn sb) as [Hgt|Hngt]; injection Hbody as <-; cbn.
    + exists sn, sb, sn. repeat split; try done; lra.
    + exists sn, sb, sb. repeat split; try done; lra.
  - injection Hbody as <-. exists sc, sb, sb. repeat split; try done; lra.
Qed.

Lemma mh_run_best_dominates init n st :
  mh_run alphabet encipheredMessage M init draws n = Ok st →
  best_dominates encipheredMessage M alphabet st.
Proof.
  revert st. induction n as [|n IH]; intros st.
  - unfold mh_run. intros (initial & _ & [= <-])%bind_Ok.
    intros sc Hsc. exists sc. split; [done|]. cbn. lra.
  - rewrite mh_run_S. intros (st0 & Hst0 & Hstep)%bind_Ok.
    destruct (mh_step_invariant _ _ _ (IH _ Hst0) Hstep)
      as (sc' & sb & sb' & Hc & Hb & _ & Hle & _).
    intros sc Hsc. exists sb'. split; [done|]. congruence.
Qed.

(** A run of [metropolisHastings] that returns has gone through every one of
    its [max_iter] iterations, and returns the best cipher of the last
    state. *)
Lemma metropolisHastings_iterations max_iter init best :
  metropolisHastings alphabet encipheredMessage M max_iter init draws = Ok best →
  (∃ st, mh_run alphabet encipheredMessage M init draws max_iter = Ok st ∧
         best = bestRevCipher st) ∧
  ∀ n, (n ≤ max_iter)%nat →
       is_Ok (mh_run alphabet encipheredMessage M init draws n).
Proof.
  unfold metropolisHastings. intros (st & Hst & [= <-])%bind_Ok.
  split; [by exists st|].
  intros n Hn. induction Hn as [|m Hm IH] in st, Hst |- *; [by exists st|].
  rewrite mh_run_S in Hst. apply bind_Ok in Hst as (st0 & Hst0 & _).
  by apply (IH st0).
Qed.
End search_loop.

(** C1 (search-state invariant and best monotonicity): [mh_run ... n] being
    the state of [metropolisHastings] after [n] iterations, whenever iteration
    [n] completes, in the state it leaves the score of [bestRevCipher] is at
    least the score of [currCipher], and at least the score [bestRevCipher]
    had before the iteration. *)
Theorem search_invariant (alphabet encipheredMessage : list ascii)
    (M : gmap ascii (gmap ascii R)) (init : list nat) (draws : nat → draw)
    (n : nat) (st' : state) :
  mh_run alphabet encipheredMessage M init draws (S n) = Ok st' →
  ∃ (st : state) (scoreCurr' scoreBest scoreBest' : R),
    mh_run alphabet encipheredMessage M init draws n = Ok st ∧
    measure (currCipher st') encipheredMessage M alphabet = Ok scoreCurr' ∧
    measure (bestRevCipher st') encipheredMessage M alphabet = Ok scoreBest' ∧
    measure (bestRevCipher st) encipheredMessage M alphabet = Ok scoreBest ∧
    scoreCurr' <= scoreBest' ∧ scoreBest <= scoreBest'.
Proof.
  rewrite mh_run_S. intros (st & Hst & Hstep)%bind_Ok.
  pose proof (mh_run_best_dominates _ _ _ _ _ _ _ Hst) as Hdom.
  destruct (mh_step_invariant _ _ _ _ _ _ _ Hdom Hstep)
    as (sc' & sb & sb' & Hc & Hb' & Hb & Hle & Hmono).
  by exists st, sc', sb, sb'.
Qed.

Lemma measure_example (cipher encipheredMessage decoded : list ascii) :
  encipher encipheredMessage abc cipher = Ok decoded →
  measure cipher encipheredMessage model_abc abc = Ok (score_sum model_abc decoded).
Proof.
  intros Henc. apply measure_unfold. exists decoded. split; [done|].
  apply logProb_loop_Ok, positive_model_log_defined, positive_model_abc.
Qed.

Lemma example_scores :
  score_sum model_abc ["a"; "c"]%char < score_sum model_abc ["c"; "a"]%char.
Proof.
  assert (score_sum model_abc ["a"; "c"]%char = ln (1/16) + 0) as -> by reflexivity.
  assert (score_sum model_abc ["c"; "a"]%char = ln (1/2) + 0) as -> by reflexivity.
  assert (ln (1/16) < ln (1/2)) by (apply ln_increasing; lra). lra.
Qed.

Lemma example_run :
  mh_run abc ["a"; "c"]%char model_abc [0; 1; 2]%nat draws_example 1 =
  Ok (State cba cba).
Proof.
  pose proof example_scores as Hlt.
  pose proof (measure_example abc ["a"; "c"]%char ["a"; "c"]%char eq_refl) as Hx.
  pose proof (measure_example cba ["a"; "c"]%char ["c"; "a"]%char eq_refl) as Hy.
  unfold mh_run.
  assert (permuteAlph abc [0; 1; 2]%nat = Ok abc) as -> by reflexivity.
  cbn [mbind result_bind seq foldM]. unfold mh_step.
  cbn [currCipher bestRevCipher draws_example swap_positions uniform].
  assert (swapCipher abc [0; 2]%nat = Ok cba) as -> by reflexivity.
  cbn [mbind result_bind].
  rewrite (acceptProb_measure_value _ _ _ _ _ _ _ Hx Hy).
  cbn [mbind result_bind].
  destruct (Rlt_dec 0 _) as [_|Hn]; [|lra].
  destruct (Rgt_dec 1 (1/2)) as [_|Hn]; [|lra].
  rewrite Hy, Hx. cbn [mbind result_bind].
  destruct (Rgt_dec _ _) as [_|Hn]; [done|lra].
Qed.

Lemma search_invariant_witness :
  mh_run abc ["a"; "c"]%char model_abc [0; 1; 2]%nat draws_example 1 =
    Ok (State cba cba) ∧
  ∃ (st : state) (scoreCurr' scoreBest scoreBest' : R),
    mh_run abc ["a"; "c"]%char model_abc [0; 1; 2]%nat draws_example 0 = Ok st ∧
    measure (currCipher (State cba cba)) ["a"; "c"]%char model_abc abc = Ok scoreCurr' ∧
    measure (bestRevCipher (State cba cba)) ["a"; "c"]%char model_abc abc = Ok scoreBest' ∧
    measure (bestRevCipher st) ["a"; "c"]%char model_abc abc = Ok scoreBest ∧
    scoreCurr' <= scoreBest' ∧ scoreBest <= scoreBest'.
Proof.
  split; [exact example_run|].
  exact (search_invariant abc ["a"; "c"]%char model_abc [0; 1; 2]%nat
           draws_example 0 (State cba cba) example_run).
Defined.

(** ** The transition model *)

Lemma map_sum_insert_None {A} (g : A → R) (m : gmap ascii A) i x :
  m !! i = None → map_sum g (<[i := x]> m) = map_sum g m + g x.
Proof.
  intros Hi. unfold map_sum. rewrite map_fold_insert_L; [done| |done].
  intros. lra.
Qed.

Lemma map_sum_delete {A} (g : A → R) (m : gmap ascii A) i y :
  m !! i = Some y → map_sum g m = map_sum g (delete i m) + g y.
Proof.
  intros Hi. unfold map_sum. rewrite (map_fold_delete_L _ _ i y m); [done| |done].
  intros. lra.
Qed.

Lemma map_sum_insert_Some {A} (g : A → R) (m : gmap ascii A) i x y :
  m !! i = Some y → map_sum g (<[i := x]> m) = map_sum g m - g y + g x.
Proof.
  intros Hi. rewrite <- (insert_delete_eq m i x).
  rewrite map_sum_insert_None by apply lookup_delete_eq.
  rewrite (map_sum_delete g m i y Hi). lra.
Qed.

Lemma map_sum_zero {A} (g : A → R) (m : gmap ascii A) :
  (∀ i x, m !! i = Some x → g x = 0) → map_sum g m = 0.
Proof.
  unfold map_sum.
  apply (map_fold_weak_ind
           (λ r m, (∀ i x, m !! i = Some x → g x = 0) → r = 0)).
  - done.
  - intros i x m' r Hi IH Hall.
    rewrite IH, (Hall i x); [lra|apply lookup_insert_eq|].
    intros j y Hj. apply (Hall j y).
    rewrite lookup_insert_ne; [done|]. intros ->. congruence.
Qed.

Lemma row_sum_map_sum (row : gmap ascii R) : row_sum row = map_sum (λ v, v) row.
Proof. done. Qed.

Lemma matrix_total_map_sum (M : gmap ascii (gmap ascii R)) :
  matrix_total M = map_sum row_sum M.
Proof. done. Qed.

(** An increment that finds its entry adds one to the total. *)
Lemma matrix_total_increment (M : gmap ascii (gmap ascii R)) c1 c2 row v :
  M !! c1 = Some row → row !! c2 = Some v →
  matrix_total (<[c1 := <[c2 := v + 1]> row]> M) = matrix_total M + 1.
Proof.
  intros Hrow Hv.
  rewrite (matrix_total_map_sum M), (matrix_total_map_sum (<[c1 := _]> M)).
  rewrite (map_sum_insert_Some _ _ _ _ _ Hrow).
  rewrite (row_sum_map_sum (<[c2 := _]> row)), (map_sum_insert_Some _ _ _ _ _ Hv).
  rewrite (row_sum_map_sum row). lra.
Qed.

(** The counting loops never raise: they are a fold of [increment] over the
    adjacent pairs of the file. *)
Lemma count_line_Ok (M : gmap ascii (gmap ascii R)) (line : list ascii) :
  count_line M line =
  Ok (foldl (λ M p, increment M p.1 p.2) M (adjacent (rstrip line))).
Proof.
  unfold count_line. case_decide as Hlen.
  - etrans; [|apply foldM_Ok_foldl].
    refine (index_pairs_loop count_step (λ M p, Ok (increment M p.1 p.2))
              _ [] (rstrip line) M).
    intros l acc i a b Ha Hb. unfold count_step. by rewrite Ha, Hb.
  - destruct (rstrip line); [done|simpl in Hlen; lia].
Qed.

Lemma count_file_Ok (M : gmap ascii (gmap ascii R)) (readFile : list (list ascii)) :
  foldM count_line M readFile =
  Ok (foldl (λ M p, increment M p.1 p.2) M (file_pairs readFile)).
Proof.
  revert M. induction readFile as [|line rest IH]; intros M; [done|].
  cbn [foldM]. rewrite count_line_Ok. cbn.
  rewrite IH. unfold file_pairs. cbn. by rewrite foldl_app.
Qed.

Lemma pair_count_snoc c1 c2 (pairs : list (ascii * ascii)) p :
  pair_count c1 c2 (pairs ++ [p]) =
  (pair_count c1 c2 pairs + (if decide (p = (c1, c2)) then 1 else 0))%nat.
Proof.
  unfold pair_count. rewrite filter_app, length_app. f_equal.
  rewrite filter_cons, filter_nil. by case_decide.
Qed.

Lemma counted_snoc (alphabet : list ascii) (pairs : list (ascii * ascii)) p :
  length (counted alphabet (pairs ++ [p])) =
  (length (counted alphabet pairs) +
   (if decide (p.1 ∈ alphabet ∧ p.2 ∈ alphabet) then 1 else 0))%nat.
Proof.
  unfold counted. rewrite filter_app, length_app. f_equal.
  rewrite filter_cons, filter_nil. by case_decide.
Qed.

Lemma counts_inv_initial (alphabet : list ascii) :
  counts_inv alphabet [] (initial_matrix alphabet).
Proof.
  unfold initial_matrix. split; [|split; [|split]].
  - intros c1. split.
    + intros [row [Hc _]%lookup_gset_to_gmap_Some]. by apply elem_of_list_to_set in Hc.
    + intros Hc. eexists. apply lookup_gset_to_gmap_Some.
      split; [by apply elem_of_list_to_set|done].
  - intros c1 row c2 [_ <-]%lookup_gset_to_gmap_Some. split.
    + intros [v [Hc _]%lookup_gset_to_gmap_Some]. by apply elem_of_list_to_set in Hc.
    + intros Hc. eexists. apply lookup_gset_to_gmap_Some.
      split; [by apply elem_of_list_to_set|done].
  - intros c1 row c2 v [_ <-]%lookup_gset_to_gmap_Some [_ <-]%lookup_gset_to_gmap_Some.
    done.
  - rewrite matrix_total_map_sum. apply map_sum_zero.
    intros c1 row [_ <-]%lookup_gset_to_gmap_Some.
    rewrite row_sum_map_sum. apply map_sum_zero.
    by intros c2 v [_ <-]%lookup_gset_to_gmap_Some.
Qed.

Lemma counts_inv_increment (alphabet : list ascii) (pairs : list (ascii * ascii))
    (M : gmap ascii (gmap ascii R)) (p : ascii * ascii) :
  counts_inv alphabet pairs M →
  counts_inv alphabet (pairs ++ [p]) (increment M p.1 p.2).
Proof.
  destruct p as [a b]. intros (Hkeys & Hrows & Hval & Htot). cbn [fst snd].
  unfold increment.
  destruct (M !! a) as [row|] eqn:Hrow.
  - destruct (row !! b) as [v|] eqn:Hv.
    + assert (a ∈ alphabet) as Ha by (apply Hkeys; by eexists).
      assert (b ∈ alphabet) as Hb by (apply (Hrows a row b Hrow); by eexists).
      split; [|split; [|split]].
      * intros c1. rewrite <- Hkeys. rewrite lookup_insert_is_Some.
        split; [intros [<-|[_ ?]]; [by eexists|done] |].
        intros ?. destruct (decide (a = c1)); [by left | by right].
      * intros c1 row' c2. rewrite lookup_insert_Some.
        intros [[<- <-]|[_ Hrow']]; [|by apply (Hrows c1 row' c2)].
        rewrite lookup_insert_is_Some, <- (Hrows a row c2 Hrow).
        split; [intros [<-|[_ ?]]; [by eexists|done] |].
        intros ?. destruct (decide (b = c2)); [by left | by right].
      * intros c1 row' c2 w. rewrite pair_count_snoc, plus_INR, lookup_insert_Some.
        intros [[<- <-]|[Hne Hrow']].
        -- rewrite lookup_insert_Some. intros [[<- <-]|[Hne Hw]].
           ++ rewrite decide_True by done. rewrite (Hval a row b v Hrow Hv). done.
           ++ rewrite decide_False by congruence.
              rewrite (Hval a row c2 w Hrow Hw). simpl. lra.
        -- intros Hw. rewrite decide_False by congruence.
           rewrite (Hval c1 row' c2 w Hrow' Hw). simpl. lra.
      * rewrite (matrix_total_increment M a b row v Hrow Hv), Htot.
        rewrite counted_snoc, plus_INR. rewrite decide_True by done. done.
    + assert (b ∉ alphabet) as Hb.
      { intros [w Hw]%(Hrows a row b Hrow). congruence. }
      split; [done|]. split; [done|]. split.
      * intros c1 row' c2 w Hrow' Hw. rewrite pair_count_snoc, plus_INR.
        rewrite decide_False.
        -- rewrite (Hval c1 row' c2 w Hrow' Hw). simpl. lra.
        -- intros [= <- <-]. apply Hb. apply (Hrows a row' b Hrow'). by eexists.
      * rewrite Htot, counted_snoc, plus_INR.
        rewrite decide_False by (cbn; tauto). simpl. lra.
  - assert (a ∉ alphabet) as Ha.
    { intros [w Hw]%Hkeys. congruence. }
    split; [done|]. split; [done|]. split.
    + intros c1 row' c2 w Hrow' Hw. rewrite pair_count_snoc, plus_INR.
      rewrite decide_False.
      * rewrite (Hval c1 row' c2 w Hrow' Hw). simpl. lra.
      * intros [= <- <-]. congruence.
    + rewrite Htot, counted_snoc, plus_INR.
      rewrite decide_False by (cbn; tauto). simpl. lra.
Qed.

Lemma counts_inv_fold (alphabet : list ascii) (pairs : list (ascii * ascii)) :
  counts_inv alphabet pairs
    (foldl (λ M p, increment M p.1 p.2) (initial_matrix alphabet) pairs).
Proof.
  induction pairs as [|p pairs IH] using rev_ind.
  - apply counts_inv_initial.
  - rewrite foldl_app. cbn [foldl]. by apply counts_inv_increment.
Qed.

Lemma pair_count_le_counted (alphabet : list ascii) c1 c2 (pairs : list (ascii * ascii)) :
  c1 ∈ alphabet → c2 ∈ alphabet →
  (pair_count c1 c2 pairs ≤ length (counted alphabet pairs))%nat.
Proof.
  intros H1 H2. unfold pair_count, counted.
  induction pairs as [|p pairs IH]; [done|].
  rewrite !filter_cons. repeat case_decide; simplify_eq/=; try lia.
  tauto.
Qed.

(** The matrix of counts the file leaves before normalisation. *)
Lemma count_file_inv (readFile : list (list ascii)) (alphabet : list ascii) :
  ∃ M, foldM count_line (initial_matrix alphabet) readFile = Ok M ∧
       counts_inv alphabet (file_pairs readFile) M.
Proof.
  eexists. split; [apply count_file_Ok | apply counts_inv_fold].
Qed.

Lemma exp_minus_20_bounds : 0 < exp (-20) <= 1.
Proof.
  split; [apply exp_pos|]. left. rewrite <- exp_0. apply exp_increasing. lra.
Qed.

(** What [transitionMatrix] writes, in terms of what it counts (the pairs
    within each line, after [rstrip]): when the file has at least one counted
    pair, every ordered pair of alphabet symbols gets a value in (0, 1], the
    floor [exp (-20)] if its count is zero, and otherwise its count divided by
    the total count of the counted pairs. *)
Theorem transitionMatrix_postcondition (readFile : list (list ascii))
    (alphabet : list ascii) :
  (0 < length (counted alphabet (file_pairs readFile)))%nat →
  ∃ M : gmap ascii (gmap ascii R),
    transitionMatrix readFile alphabet = Ok M ∧
    ∀ c1 c2, c1 ∈ alphabet → c2 ∈ alphabet →
      ∃ p : R,
        M !! c1 ≫= (λ row, row !! c2) = Some p ∧
        0 < p <= 1 ∧
        (pair_count c1 c2 (file_pairs readFile) = 0%nat → p = exp (-20)) ∧
        (pair_count c1 c2 (file_pairs readFile) ≠ 0%nat →
           p = INR (pair_count c1 c2 (file_pairs readFile)) /
               INR (length (counted alphabet (file_pairs readFile)))).
Proof.
  intros Htotal.
  destruct (count_file_inv readFile alphabet) as (Mc & Hcount & Hkeys & Hrows & Hval & Htot).
  set (pairs := file_pairs readFile) in *.
  set (t := length (counted alphabet pairs)) in *.
  assert (0 < INR t) as Ht by (apply lt_0_INR; lia).
  unfold transitionMatrix. rewrite Hcount. cbn. unfold normalize.
  destruct (Req_dec_T (matrix_total Mc) 0) as [Hz|_]; [lra|]. cbn.
  eexists. split; [done|].
  intros c1 c2 Hc1 Hc2.
  destruct (proj2 (Hkeys c1) Hc1) as [row Hrow].
  destruct (proj2 (Hrows c1 row c2 Hrow) Hc2) as [v Hv].
  pose proof (Hval c1 row c2 v Hrow Hv) as ->.
  pose proof (pair_count_le_counted alphabet c1 c2 pairs Hc1 Hc2) as Hle.
  fold t in Hle. apply le_INR in Hle.
  unfold floor_zeros. rewrite !lookup_fmap, Hrow. cbn.
  rewrite !lookup_fmap, Hv. cbn. rewrite Htot.
  eexists. split; [done|].
  destruct (Req_dec_T (INR (pair_count c1 c2 pairs) / INR t) 0) as [Hq|Hq].
  - split; [apply exp_minus_20_bounds|]. split; [done|].
    intros Hne. exfalso.
    assert (0 < INR (pair_count c1 c2 pairs)) as Hpos by (apply lt_0_INR; lia).
    assert (0 < INR (pair_count c1 c2 pairs) / INR t)
      by (by apply Rdiv_lt_0_compat).
    lra.
  - assert (pair_count c1 c2 pairs ≠ 0%nat) as Hne.
    { intros Hz. apply Hq. rewrite Hz. simpl. lra. }
    assert (0 < INR (pair_count c1 c2 pairs)) as Hpos by (apply lt_0_INR; lia).
    split; [|split; done].
    split; [by apply Rdiv_lt_0_compat|].
    apply (Rmult_le_reg_r (INR t)); [done|].
    unfold Rdiv. rewrite Rmult_assoc, Rinv_l by lra. lra.
Qed.

(** With no counted pair and a non-empty alphabet the division of line 126
    raises [ZeroDivisionError]: no model is written. *)
Lemma transitionMatrix_no_pairs (readFile : list (list ascii)) (alphabet : list ascii) :
  length (counted alphabet (file_pairs readFile)) = 0%nat →
  alphabet ≠ [] →
  transitionMatrix readFile alphabet = Err ZeroDivisionError.
Proof.
  intros Htotal Hne.
  destruct (count_file_inv readFile alphabet) as (Mc & Hcount & Hkeys & Hrows & Hval & Htot).
  unfold transitionMatrix. rewrite Hcount. cbn. unfold normalize.
  rewrite Htot, Htotal. simpl.
  destruct (Req_dec_T 0 0) as [_|Hn]; [|done].
  destruct alphabet as [|c alphabet]; [done|].
  destruct (proj2 (Hkeys c)) as [row Hrow]; [by left|].
  assert (has_entry Mc = true) as ->; [|done].
  unfold has_entry. apply existsb_exists. exists (c, row). split.
  - apply list_elem_of_In. by apply elem_of_map_to_list.
  - cbn. apply negb_true_iff, bool_decide_eq_false.
    intros Hdom. assert (c ∈ dom row) as Hc.
    { apply elem_of_dom. apply (Hrows c row c Hrow). by left. }
    rewrite Hdom in Hc. by apply not_elem_of_empty in Hc.
Qed.

Lemma transitionMatrix_postcondition_witness :
  (0 < length (counted ["a"; "b"]%char
                 (file_pairs [["a"; "b"; "a"; " "; "010"]%char; ["b"; "a"]%char])))%nat ∧
  ∃ M : gmap ascii (gmap ascii R),
    transitionMatrix [["a"; "b"; "a"; " "; "010"]%char; ["b"; "a"]%char]
                     ["a"; "b"]%char = Ok M ∧
    ∃ p : R,
      M !! "b"%char ≫= (λ row, row !! "a"%char) = Some p ∧
      0 < p <= 1 ∧
      p = INR 2 / INR 3.
Proof.
  assert (0 < length (counted ["a"; "b"]%char
                 (file_pairs [["a"; "b"; "a"; " "; "010"]%char; ["b"; "a"]%char])))%nat
    as Htotal by (vm_compute; lia).
  split; [exact Htotal|].
  destruct (transitionMatrix_postcondition
              [["a"; "b"; "a"; " "; "010"]%char; ["b"; "a"]%char]
              ["a"; "b"]%char Htotal) as (M & HM & Hentries).
  exists M. split; [exact HM|].
  destruct (Hentries "b"%char "a"%char) as (p & Hp & Hbounds & _ & Hratio).
  - decide_closed.
  - decide_closed.
  - exists p. split; [exact Hp|]. split; [exact Hbounds|].
    apply Hratio. vm_compute. lia.
Defined.

(** C9 (transition-model construction) at a failing input.  The corpus is the
    one line "ba " with its line break, the alphabet has the blank.  The text
    holds the pair [(a, blank)] once, and two pairs of alphabet symbols in
    all; the model the source writes gives [(a, blank)] the floor, as if it
    had never been observed, and gives [(b, a)] the value 1 instead of 1/2:
    [rstrip] has removed the blank with the line break.  And for a corpus
    with no pair at all no model is written: the normalisation divides by
    zero. *)
Theorem transitionMatrix_trailing_blank :
  pair_count "a" " " (corpus_pairs corpus_blank) = 1%nat ∧
  length (counted alphabet_blank (corpus_pairs corpus_blank)) = 2%nat ∧
  (∃ M : gmap ascii (gmap ascii R),
     transitionMatrix corpus_blank alphabet_blank = Ok M ∧
     M !! "a"%char ≫= (λ row, row !! " "%char) = Some (exp (-20)) ∧
     M !! "b"%char ≫= (λ row, row !! "a"%char) = Some 1) ∧
  transitionMatrix [] alphabet_blank = Err ZeroDivisionError.
Proof.
  split; [reflexivity|]. split; [reflexivity|]. split.
  - assert (0 < length (counted alphabet_blank (file_pairs corpus_blank)))%nat
      as Htotal by (vm_compute; lia).
    destruct (transitionMatrix_postcondition corpus_blank alphabet_blank Htotal)
      as (M & HM & Hentries).
    exists M. split; [exact HM|]. split.
    + destruct (Hentries "a"%char " "%char) as (p & Hp & _ & Hzero & _);
        [decide_closed..|].
      rewrite Hp. f_equal. by apply Hzero.
    + destruct (Hentries "b"%char "a"%char) as (p & Hp & _ & _ & Hratio);
        [decide_closed..|].
      rewrite Hp. f_equal. rewrite Hratio by (vm_compute; lia).
      assert (pair_count "b" "a" (file_pairs corpus_blank) = 1%nat) as ->
        by reflexivity.
      assert (length (counted alphabet_blank (file_pairs corpus_blank)) = 1%nat)
        as -> by reflexivity.
      simpl. lra.
  - by apply transitionMatrix_no_pairs.
Qed.

(** ** Sanity checks on concrete inputs *)

Example encipher_example :
  encipher ["a"; "b"; "z"; "c"]%char bca abc = Ok ["b"; "c"; "z"; "a"]%char.
Proof. reflexivity. Qed.

Example encipher_short_cipher :
  encipher ["a"]%char ["b"; "c"]%char abc = Err IndexError.
Proof. reflexivity. Qed.

Example encipher_duplicate_source :
  encipher ["a"]%char ["x"; "y"]%char ["a"; "a"]%char = Ok ["y"]%char.
Proof. reflexivity. Qed.

Example rstrip_example :
  rstrip ["a"; " "; "b"; " "; "009"; "010"]%char = ["a"; " "; "b"]%char.
Proof. reflexivity. Qed.

Example swapCipher_example :
  swapCipher abc [0; 2]%nat = Ok cba.
Proof. reflexivity. Qed.

Example file_pairs_example :
  file_pairs [["a"; "b"; "a"; " "; "010"]%char; ["b"; "a"]%char] =
  [("a", "b"); ("b", "a"); ("b", "a")]%char.
Proof. reflexivity. Qed.

(** * Further properties of the code *)

(** ** The codec *)

Lemma last_occurrence (l : list ascii) c :
  c ∈ l → ∃ k, l !! k = Some c ∧ ∀ j, (k < j)%nat → l !! j ≠ Some c.
Proof.
  induction l as [|a l IH]; [by intros ?%elem_of_nil|].
  intros Hc. destruct (decide (c ∈ l)) as [Hin|Hnin].
  - destruct (IH Hin) as (k & Hk & Hlast). exists (S k). split; [done|].
    intros [|j] Hj; [lia|]. apply Hlast. lia.
  - apply elem_of_cons in Hc as [->|?]; [|done].
    exists 0%nat. split; [done|]. intros [|j] Hj; [lia|].
    intros Hl. simpl in Hl. apply Hnin. by apply list_elem_of_lookup_2 in Hl.
Qed.

(** The two dictionaries of a round trip undo each other on every symbol. *)
Lemma substitute_round_trip (alphabet P : list ascii) cm1 cm2 (c : ascii) :
  NoDup alphabet → P ≡ₚ alphabet →
  cipherMap_loop alphabet P 0 ∅ = Ok cm1 →
  cipherMap_loop P alphabet 0 ∅ = Ok cm2 →
  substitute cm2 (substitute cm1 c) = c.
Proof.
  intros Hnd Hperm Hcm1 Hcm2. unfold substitute.
  assert (NoDup P) as HndP by by rewrite Hperm.
  destruct (decide (c ∈ alphabet)) as [[k Hk]%list_elem_of_lookup|Hnin].
  - destruct (cipherMap_loop_last _ _ _ _ _ _ _ Hcm1 Hk) as [Heq1 [x Hx]].
    { by apply NoDup_last_occurrence. }
    simpl in *. rewrite Heq1, Hx. simpl.
    destruct (cipherMap_loop_last _ _ _ _ _ _ _ Hcm2 Hx) as [Heq2 _].
    { by apply NoDup_last_occurrence. }
    simpl in *. by rewrite Heq2, Hk.
  - rewrite (cipherMap_loop_notin _ _ _ _ _ _ Hcm1 Hnin), lookup_empty. simpl.
    assert (c ∉ P) as HninP by by rewrite Hperm.
    by rewrite (cipherMap_loop_notin _ _ _ _ _ _ Hcm2 HninP), lookup_empty.
Qed.

Lemma encipher_round_trip (alphabet P message : list ascii) :
  NoDup alphabet → P ≡ₚ alphabet →
  ∃ enc : list ascii,
    encipher message P alphabet = Ok enc ∧
    encipher enc alphabet P = Ok message.
Proof.
  intros Hnd Hperm.
  assert (length P = length alphabet) as Hlen by by rewrite Hperm.
  destruct (encipher_Ok message P alphabet) as (cm1 & Hcm1 & Henc1); [lia|].
  exists (substitute cm1 <$> message). split; [done|].
  destruct (encipher_Ok (substitute cm1 <$> message) alphabet P)
    as (cm2 & Hcm2 & Henc2); [lia|].
  rewrite Henc2. f_equal. rewrite <- list_fmap_compose.
  rewrite <- (list_fmap_id message) at 2.
  apply list_fmap_ext. intros _ c _. simpl.
  by apply (substitute_round_trip alphabet P).
Qed.

(** With a duplicate-free alphabet and a key that permutes it, enciphering and
    then deciphering with the same key gives back every message, symbols
    outside the alphabet included (the driver's message has line breaks);
    and so does deciphering first and enciphering after. *)
Theorem encipher_decipher_any_message (alphabet P message : list ascii) :
  NoDup alphabet → P ≡ₚ alphabet →
  (∃ enc : list ascii,
     encipher message P alphabet = Ok enc ∧
     encipher enc alphabet P = Ok message) ∧
  (∃ dec : list ascii,
     encipher message alphabet P = Ok dec ∧
     encipher dec P alphabet = Ok message).
Proof.
  intros Hnd Hperm. split.
  - by apply encipher_round_trip.
  - apply encipher_round_trip; [by rewrite Hperm | done].
Qed.

Lemma encipher_decipher_any_message_witness :
  NoDup abc ∧ bca ≡ₚ abc ∧
  ∃ enc : list ascii,
    encipher ["a"; " "; "z"; "c"; "010"]%char bca abc = Ok enc ∧
    encipher enc abc bca = Ok ["a"; " "; "z"; "c"; "010"]%char.
Proof.
  assert (NoDup abc) as Hnd by decide_closed.
  assert (bca ≡ₚ abc) as Hperm by decide_closed.
  split; [exact Hnd|]. split; [exact Hperm|].
  exact (proj1 (encipher_decipher_any_message abc bca _ Hnd Hperm)).
Defined.

(** The alphabet used as its own key changes nothing, whatever the alphabet
    (duplicates included) and the message. *)
Theorem encipher_identity_key (alphabet message : list ascii) :
  encipher message alphabet alphabet = Ok message.
Proof.
  destruct (encipher_Ok message alphabet alphabet) as (cm & Hcm & ->); [done|].
  f_equal. rewrite <- (list_fmap_id message) at 2.
  apply list_fmap_ext. intros _ c _. simpl. unfold substitute.
  destruct (decide (c ∈ alphabet)) as [Hin|Hnin].
  - destruct (last_occurrence alphabet c Hin) as (k & Hk & Hlast).
    destruct (cipherMap_loop_last _ _ _ _ _ _ _ Hcm Hk Hlast) as [Heq _].
    simpl in Heq. by rewrite Heq, Hk.
  - by rewrite (cipherMap_loop_notin _ _ _ _ _ _ Hcm Hnin), lookup_empty.
Qed.

(** A duplicate in the alphabet can make two symbols collide, and then the
    message cannot be read back: the round trip needs the alphabet to be
    duplicate-free. *)
Example encipher_duplicate_alphabet_collides :
  ["b"; "a"; "a"]%char ≡ₚ ["a"; "b"; "a"]%char ∧
  encipher ["a"; "b"]%char ["b"; "a"; "a"]%char ["a"; "b"; "a"]%char =
    Ok ["a"; "a"]%char ∧
  encipher ["a"; "a"]%char ["a"; "b"; "a"]%char ["b"; "a"; "a"]%char =
    Ok ["a"; "a"]%char.
Proof. split; [decide_closed|]. split; reflexivity. Qed.

(** ** The generators *)

(** What a swap that returns has done. *)
Lemma swapCipher_inv (cipher : list ascii) (i j : nat) (cipherList : list ascii) :
  swapCipher cipher [i; j] = Ok cipherList →
  ∃ xi xj, (2 ≤ length cipher)%nat ∧
    cipher !! i = Some xi ∧ cipher !! j = Some xj ∧
    cipherList = <[j := xi]> (<[i := xj]> cipher).
Proof.
  unfold swapCipher, random_sample. rewrite length_seq.
  case_decide as Hlen; [done|]. cbn.
  destruct (seq 0 (length cipher) !! i) as [i'|] eqn:Hi; cbn.
  - apply lookup_seq in Hi as [-> Hi].
    destruct (seq 0 (length cipher) !! j) as [j'|] eqn:Hj; cbn; [|done].
    apply lookup_seq in Hj as [-> Hj]. cbn.
    destruct (cipher !! j) as [xj|]; [|done].
    destruct (cipher !! i) as [xi|]; [|done].
    intros [= <-]. exists xi, xj. repeat split; try done. lia.
  - destruct (seq 0 (length cipher) !! j) as [j'|]; by cbn.
Qed.

Lemma swapCipher_pair (cipher : list ascii) (i j : nat) xi xj :
  (2 ≤ length cipher)%nat → cipher !! i = Some xi → cipher !! j = Some xj →
  swapCipher cipher [i; j] = Ok (<[j := xi]> (<[i := xj]> cipher)).
Proof.
  intros Hlen Hi Hj. unfold swapCipher, random_sample.
  pose proof (lookup_lt_Some _ _ _ Hi). pose proof (lookup_lt_Some _ _ _ Hj).
  rewrite length_seq, decide_False by lia. cbn.
  rewrite !lookup_seq_lt by done. cbn. by rewrite Hi, Hj.
Qed.

(** The proposal is symmetric: the swap that led from one cipher to another
    leads back, the two positions can be given in either order, and the
    length is kept. *)
Theorem swapCipher_involutive (cipher cipherList : list ascii) (i j : nat) :
  swapCipher cipher [i; j] = Ok cipherList →
  swapCipher cipherList [i; j] = Ok cipher ∧
  swapCipher cipher [j; i] = Ok cipherList ∧
  length cipherList = length cipher.
Proof.
  intros Hswap.
  destruct (swapCipher_inv _ _ _ _ Hswap) as (xi & xj & Hlen & Hi & Hj & ->).
  pose proof (lookup_lt_Some _ _ _ Hi) as Hi'.
  pose proof (lookup_lt_Some _ _ _ Hj) as Hj'.
  destruct (decide (i = j)) as [<-|Hij].
  - assert (xj = xi) as -> by congruence.
    rewrite list_insert_insert_eq, (list_insert_id _ _ _ Hi) in Hswap |- *.
    done.
  - assert (<[j := xi]> (<[i := xj]> cipher) !! i = Some xj) as Hi2.
    { rewrite list_lookup_insert_ne by done. by apply list_lookup_insert_eq. }
    assert (<[j := xi]> (<[i := xj]> cipher) !! j = Some xi) as Hj2.
    { apply list_lookup_insert_eq. by rewrite length_insert. }
    split; [|split].
    + rewrite (swapCipher_pair _ i j xj xi) by (by rewrite ?length_insert).
      f_equal. apply list_eq. intros k.
      destruct (decide (k = j)) as [->|Hkj].
      { rewrite list_lookup_insert_eq by (by rewrite !length_insert). done. }
      rewrite list_lookup_insert_ne by done.
      destruct (decide (k = i)) as [->|Hki].
      { rewrite list_lookup_insert_eq by (by rewrite !length_insert). done. }
      by rewrite !list_lookup_insert_ne by done.
    + rewrite (swapCipher_pair cipher j i xj xi Hlen Hj Hi).
      f_equal. by apply list_insert_insert_ne.
    + by rewrite !length_insert.
Qed.

Lemma swapCipher_involutive_witness :
  swapCipher abc [0; 2]%nat = Ok cba ∧
  swapCipher cba [0; 2]%nat = Ok abc ∧
  swapCipher abc [2; 0]%nat = Ok cba ∧
  length cba = length abc.
Proof.
  assert (swapCipher abc [0; 2]%nat = Ok cba) as Hswap by reflexivity.
  split; [exact Hswap|].
  exact (swapCipher_involutive abc cba 0 2 Hswap).
Defined.

(** ** The scorer and the acceptance probability *)

Lemma pair_step_Err M (acc : R) (p : ascii * ascii) e :
  pair_step M acc p = Err e →
  e = ValueError ∧
  ¬ (∀ row v, M !! p.1 = Some row → row !! p.2 = Some v → 0 < v).
Proof.
  intros Herr. split.
  - unfold pair_step in Herr.
    destruct (M !! p.1) as [row|]; [|done].
    destruct (row !! p.2) as [v|]; [|done].
    unfold math_log in Herr. destruct (Rlt_dec 0 v); cbn in Herr; congruence.
  - intros Hp. rewrite (pair_step_Ok _ _ _ Hp) in Herr. done.
Qed.

Lemma pair_fold_Err M (ps : list (ascii * ascii)) (acc : R) e :
  foldM (pair_step M) acc ps = Err e →
  e = ValueError ∧
  ¬ Forall (λ p, ∀ row v, M !! p.1 = Some row → row !! p.2 = Some v → 0 < v) ps.
Proof.
  revert acc. induction ps as [|p ps IH]; intros acc; cbn [foldM]; [done|].
  destruct (pair_step M acc p) as [acc'|e'] eqn:Hstep; cbn.
  - intros [-> Hn]%IH. split; [done|]. intros [_ ?]%Forall_cons. done.
  - intros [= ->]. apply pair_step_Err in Hstep as [-> Hn].
    split; [done|]. intros [? _]%Forall_cons. done.
Qed.

Lemma pair_fold_Ok_inv M (ps : list (ascii * ascii)) (acc v : R) :
  foldM (pair_step M) acc ps = Ok v →
  Forall (λ p, ∀ row v, M !! p.1 = Some row → row !! p.2 = Some v → 0 < v) ps.
Proof.
  revert acc. induction ps as [|p ps IH]; intros acc; cbn [foldM]; [done|].
  intros (acc' & Hstep & Hrest)%bind_Ok. apply Forall_cons. split; [|by eapply IH].
  intros row w Hrow Hw. unfold pair_step in Hstep. rewrite Hrow, Hw in Hstep.
  unfold math_log in Hstep. by destruct (Rlt_dec 0 w).
Qed.

(** The exceptions of [measure]: an [IndexError] exactly when the cipher is
    longer than the alphabet, and otherwise a [ValueError] exactly when the
    model has an entry that is not positive for two adjacent symbols of the
    unscrambled message (the entry a matrix without the floor would have for
    a pair that was never observed). *)
Theorem measure_exceptions (cipher encipheredMessage : list ascii)
    (M : gmap ascii (gmap ascii R)) (alphabet : list ascii) (e : exn) :
  measure cipher encipheredMessage M alphabet = Err e ↔
  ((length alphabet < length cipher)%nat ∧ e = IndexError) ∨
  (∃ unscrambled, encipher encipheredMessage alphabet cipher = Ok unscrambled ∧
                  ¬ log_defined M unscrambled ∧ e = ValueError).
Proof.
  unfold measure.
  destruct (encipher encipheredMessage alphabet cipher) as [u|e'] eqn:Henc; cbn.
  - rewrite logProb_loop_adjacent. split.
    + intros [-> Hn]%pair_fold_Err. right. by exists u.
    + intros [[Hlen _]|(u' & [= <-] & Hn & ->)].
      * assert (encipher encipheredMessage alphabet cipher = Err IndexError)
          by by apply encipher_Err.
        congruence.
      * destruct (foldM (pair_step M) 0 (adjacent u)) as [v|e'] eqn:Hfold.
        -- destruct Hn. by apply pair_fold_Ok_inv in Hfold.
        -- by apply pair_fold_Err in Hfold as [-> _].
  - apply encipher_Err in Henc as [Hlen ->]. split.
    + intros [= <-]. by left.
    + intros [[_ ->]|(u & [=] & _)]. done.
Qed.

(** A message of fewer than two symbols has no pair to score: whatever the
    model, [measure] returns 0 and [acceptProb] returns 1 (the ciphers being
    no longer than the alphabet). *)
Theorem short_message_scores_zero (X Y encipheredMessage : list ascii)
    (M : gmap ascii (gmap ascii R)) (alphabet : list ascii) :
  (length encipheredMessage ≤ 1)%nat →
  (length X ≤ length alphabet)%nat → (length Y ≤ length alphabet)%nat →
  measure X encipheredMessage M alphabet = Ok 0 ∧
  acceptProb X Y encipheredMessage M alphabet = Ok 1.
Proof.
  intros Hmsg HX HY.
  assert (∀ c, (length c ≤ length alphabet)%nat →
               measure c encipheredMessage M alphabet = Ok 0) as Hzero.
  { intros c Hc.
    destruct (encipher_Ok encipheredMessage alphabet c Hc) as (cm & _ & Henc).
    unfold measure. rewrite Henc. cbn. unfold logProb_loop.
    rewrite length_fmap. by replace (length encipheredMessage - 1)%nat with 0%nat by lia. }
  split; [by apply Hzero|].
  rewrite (acceptProb_measure_value _ _ _ _ _ 0 0) by by apply Hzero.
  f_equal. destruct (Rlt_dec 0 (0 - 0)); [lra|]. rewrite Rminus_diag. apply exp_0.
Qed.

Lemma short_message_scores_zero_witness :
  (length ["a"]%char ≤ 1)%nat ∧
  (length abc ≤ length abc)%nat ∧ (length bca ≤ length abc)%nat ∧
  measure abc ["a"]%char ∅ abc = Ok 0 ∧
  acceptProb abc bca ["a"]%char ∅ abc = Ok 1.
Proof.
  assert (length ["a"]%char ≤ 1)%nat as Hmsg by (simpl; lia).
  assert (length abc ≤ length abc)%nat as HX by (simpl; lia).
  assert (length bca ≤ length abc)%nat as HY by (simpl; lia).
  split; [exact Hmsg|]. split; [exact HX|]. split; [exact HY|].
  exact (short_message_scores_zero abc bca ["a"]%char ∅ abc Hmsg HX HY).
Defined.

(** ** The search loop *)

Lemma permuteAlph_valid (alphabet : list ascii) (positions : list nat) :
  sample_ok (length alphabet) (length alphabet) positions →
  ∃ permuted, permuteAlph alphabet positions = Ok permuted ∧ permuted ≡ₚ alphabet.
Proof. apply random_sample_all. Qed.

Lemma swapCipher_valid (cipher : list ascii) (positions : list nat) :
  sample_ok (length cipher) 2 positions →
  ∃ cipherList, swapCipher cipher positions = Ok cipherList ∧ cipherList ≡ₚ cipher.
Proof.
  intros (i & j & -> & Hij & Hi & Hj)%sample_ok_two.
  destruct (lookup_lt_is_Some_2 cipher i Hi) as [xi Hxi].
  destruct (lookup_lt_is_Some_2 cipher j Hj) as [xj Hxj].
  eexists. split; [by apply swapCipher_Ok|]. by apply swap_Permutation.
Qed.

Section search_run.
Variables (alphabet encipheredMessage : list ascii).
Variable M : gmap ascii (gmap ascii R).
Variable draws : nat → draw.
Variable init : list nat.
Hypothesis init_ok : sample_ok (length alphabet) (length alphabet) init.

Lemma mh_step_permutation st i st' :
  sample_ok (length alphabet) 2 (swap_positions (draws i)) →
  permutation_state alphabet st →
  mh_step encipheredMessage M alphabet draws st i = Ok st' →
  permutation_state alphabet st'.
Proof.
  intros Hdraw [Hcurr Hbest]. unfold mh_step.
  intros (next & Hnext & (a & Ha & Hbody)%bind_Ok)%bind_Ok.
  assert (next ≡ₚ alphabet) as Hperm.
  { destruct (swapCipher_valid (currCipher st) (swap_positions (draws i)))
      as (next' & Hnext' & Hp); [by rewrite Hcurr|].
    assert (next' = next) as -> by congruence. by rewrite Hp. }
  destruct (Rgt_dec a (uniform (draws i))); [|by injection Hbody as <-].
  apply bind_Ok in Hbody as (mc & _ & (mb & _ & Hbody)%bind_Ok).
  destruct (Rgt_dec mc mb); by injection Hbody as <-.
Qed.

Lemma mh_run_permutation n st :
  (∀ i, (i < n)%nat → sample_ok (length alphabet) 2 (swap_positions (draws i))) →
  mh_run alphabet encipheredMessage M init draws n = Ok st →
  permutation_state alphabet st.
Proof.
  revert st. induction n as [|n IH]; intros st Hdraws.
  - unfold mh_run. intros (initial & Hinit & [= <-])%bind_Ok.
    destruct (permuteAlph_valid alphabet init init_ok) as (p & Hp & Hperm).
    assert (p = initial) as -> by congruence. by split.
  - rewrite mh_run_S. intros (st0 & Hst0 & Hstep)%bind_Ok.
    apply (mh_step_permutation st0 n); [apply Hdraws; lia| |done].
    apply IH; [|done]. intros i Hi. apply Hdraws. lia.
Qed.

(** With an alphabet of two symbols at least and a model of positive entries,
    a step on a state of permutations completes. *)
Lemma mh_step_Ok st i :
  (2 ≤ length alphabet)%nat → positive_model M →
  sample_ok (length alphabet) 2 (swap_positions (draws i)) →
  permutation_state alphabet st →
  is_Ok (mh_step encipheredMessage M alphabet draws st i).
Proof.
  intros Hlen Hpos Hdraw [Hcurr Hbest]. unfold mh_step.
  destruct (swapCipher_valid (currCipher st) (swap_positions (draws i)))
    as (next & -> & Hp); [by rewrite Hcurr|]. cbn.
  assert (∀ c, c ≡ₚ alphabet →
               is_Ok (measure c encipheredMessage M alphabet)) as Hmeasure.
  { intros c Hc.
    destruct (measure_Ok c encipheredMessage M alphabet) as (d & _ & Hm);
      [by rewrite Hc|done|by eexists]. }
  destruct (Hmeasure (currCipher st) Hcurr) as [sc Hsc].
  destruct (Hmeasure next) as [sn Hsn]; [by rewrite Hp|].
  destruct (Hmeasure (bestRevCipher st) Hbest) as [sb Hsb].
  rewrite (acceptProb_measure_value _ _ _ _ _ _ _ Hsc Hsn). cbn.
  destruct (Rgt_dec _ _); [|by eexists].
  rewrite Hsn, Hsb. cbn. destruct (Rgt_dec sn sb); by eexists.
Qed.

Lemma mh_run_Ok n :
  (2 ≤ length alphabet)%nat → positive_model M →
  (∀ i, (i < n)%nat → sample_ok (length alphabet) 2 (swap_positions (draws i))) →
  is_Ok (mh_run alphabet encipheredMessage M init draws n).
Proof.
  intros Hlen Hpos. induction n as [|n IH]; intros Hdraws.
  - destruct (permuteAlph_valid alphabet init init_ok) as (p & Hp & _).
    unfold mh_run. rewrite Hp. by eexists.
  - destruct IH as [st Hst]; [intros i Hi; apply Hdraws; lia|].
    rewrite mh_run_S, Hst. cbn. apply mh_step_Ok; try done.
    + apply Hdraws. lia.
    + apply (mh_run_permutation n); [|done]. intros i Hi. apply Hdraws. lia.
Qed.

(** The best cipher of a later state scores at least as high as the best
    cipher of an earlier one. *)
Lemma mh_run_best_monotone m n stm stn sbm :
  (m ≤ n)%nat →
  mh_run alphabet encipheredMessage M init draws m = Ok stm →
  mh_run alphabet encipheredMessage M init draws n = Ok stn →
  measure (bestRevCipher stm) encipheredMessage M alphabet = Ok sbm →
  ∃ sbn, measure (bestRevCipher stn) encipheredMessage M alphabet = Ok sbn ∧
         sbm <= sbn.
Proof.
  intros Hmn Hm. revert stn. induction Hmn as [|n Hmn IH]; intros stn Hn Hsb.
  - assert (stn = stm) as -> by congruence. exists sbm. split; [done|lra].
  - rewrite mh_run_S in Hn. apply bind_Ok in Hn as (st0 & Hst0 & Hstep).
    destruct (IH st0 Hst0 Hsb) as (sb0 & Hsb0 & Hle).
    destruct (mh_step_invariant _ _ _ _ _ _ _
                (mh_run_best_dominates _ _ _ _ _ _ _ Hst0) Hstep)
      as (sc' & sb & sb' & _ & Hb' & Hb & _ & Hmono).
    exists sb'. split; [done|]. assert (sb = sb0) by congruence. lra.
Qed.
End search_run.

Lemma draws_example_ok (i : nat) :
  sample_ok (length abc) 2 (swap_positions (draws_example i)).
Proof.
  split; [reflexivity|]. split; [decide_closed|].
  repeat constructor; simpl; lia.
Qed.

Lemma init_example_ok : sample_ok (length abc) (length abc) [0; 1; 2]%nat.
Proof.
  split; [reflexivity|]. split; [decide_closed|].
  repeat constructor; simpl; lia.
Qed.

(** The cipher [metropolisHastings] returns is a permutation of the alphabet,
    as long as [random.sample] keeps its contract at every draw. *)
Theorem metropolisHastings_returns_permutation (alphabet encipheredMessage : list ascii)
    (M : gmap ascii (gmap ascii R)) (max_iter : nat) (init : list nat)
    (draws : nat → draw) (best : list ascii) :
  sample_ok (length alphabet) (length alphabet) init →
  (∀ i, (i < max_iter)%nat →
        sample_ok (length alphabet) 2 (swap_positions (draws i))) →
  metropolisHastings alphabet encipheredMessage M max_iter init draws = Ok best →
  best ≡ₚ alphabet.
Proof.
  intros Hinit Hdraws. unfold metropolisHastings.
  intros (st & Hst & [= <-])%bind_Ok.
  by destruct (mh_run_permutation _ _ _ _ _ Hinit _ _ Hdraws Hst).
Qed.

Lemma metropolisHastings_returns_permutation_witness :
  sample_ok (length abc) (length abc) [0; 1; 2]%nat ∧
  metropolisHastings abc ["a"; "c"]%char model_abc 1 [0; 1; 2]%nat draws_example =
    Ok cba ∧
  cba ≡ₚ abc.
Proof.
  assert (metropolisHastings abc ["a"; "c"]%char model_abc 1 [0; 1; 2]%nat
            draws_example = Ok cba) as Hrun.
  { unfold metropolisHastings. by rewrite example_run. }
  split; [exact init_example_ok|]. split; [exact Hrun|].
  exact (metropolisHastings_returns_permutation abc ["a"; "c"]%char model_abc 1
           [0; 1; 2]%nat draws_example cba init_example_ok
           (λ i _, draws_example_ok i) Hrun).
Defined.

(** With an alphabet of at least two symbols, a model whose entries are all
    positive and draws that keep the contract of [random.sample],
    [metropolisHastings] raises nothing: it returns a cipher, for every
    message and every iteration budget. *)
Theorem metropolisHastings_returns (alphabet encipheredMessage : list ascii)
    (M : gmap ascii (gmap ascii R)) (max_iter : nat) (init : list nat)
    (draws : nat → draw) :
  (2 ≤ length alphabet)%nat → positive_model M →
  sample_ok (length alphabet) (length alphabet) init →
  (∀ i, (i < max_iter)%nat →
        sample_ok (length alphabet) 2 (swap_positions (draws i))) →
  ∃ best : list ascii,
    metropolisHastings alphabet encipheredMessage M max_iter init draws = Ok best.
Proof.
  intros Hlen Hpos Hinit Hdraws.
  destruct (mh_run_Ok alphabet encipheredMessage M draws init Hinit max_iter
              Hlen Hpos Hdraws) as [st Hst].
  exists (bestRevCipher st). unfold metropolisHastings. by rewrite Hst.
Qed.

Lemma metropolisHastings_returns_witness :
  (2 ≤ length abc)%nat ∧ positive_model model_abc ∧
  sample_ok (length abc) (length abc) [0; 1; 2]%nat ∧
  ∃ best : list ascii,
    metropolisHastings abc ["a"; "c"; "b"; "b"; "?"; "a"]%char model_abc
      default_max_iter [0; 1; 2]%nat draws_example = Ok best.
Proof.
  assert (2 ≤ length abc)%nat as Hlen by (simpl; lia).
  split; [exact Hlen|]. split; [exact positive_model_abc|].
  split; [exact init_example_ok|].
  exact (metropolisHastings_returns abc _ model_abc default_max_iter
           [0; 1; 2]%nat draws_example Hlen positive_model_abc init_example_ok
           (λ i _, draws_example_ok i)).
Defined.

(** The cipher [metropolisHastings] returns scores at least as high as every
    cipher the chain has been at. *)
Theorem best_dominates_visited (alphabet encipheredMessage : list ascii)
    (M : gmap ascii (gmap ascii R)) (max_iter : nat) (init : list nat)
    (draws : nat → draw) (best : list ascii) (m : nat) (st : state)
    (scoreVisited : R) :
  metropolisHastings alphabet encipheredMessage M max_iter init draws = Ok best →
  (m ≤ max_iter)%nat →
  mh_run alphabet encipheredMessage M init draws m = Ok st →
  measure (currCipher st) encipheredMessage M alphabet = Ok scoreVisited →
  ∃ scoreBest : R,
    measure best encipheredMessage M alphabet = Ok scoreBest ∧
    scoreVisited <= scoreBest.
Proof.
  unfold metropolisHastings. intros (stn & Hstn & [= <-])%bind_Ok Hm Hst Hsc.
  destruct (mh_run_best_dominates _ _ _ _ _ _ _ Hst _ Hsc) as (sbm & Hsbm & Hle).
  destruct (mh_run_best_monotone _ _ _ _ _ _ _ _ _ _ Hm Hst Hstn Hsbm)
    as (sbn & Hsbn & Hle').
  exists sbn. split; [done|lra].
Qed.

Lemma best_dominates_visited_witness :
  metropolisHastings abc ["a"; "c"]%char model_abc 1 [0; 1; 2]%nat draws_example =
    Ok cba ∧
  (0 ≤ 1)%nat ∧
  mh_run abc ["a"; "c"]%char model_abc [0; 1; 2]%nat draws_example 0 =
    Ok (State abc abc) ∧
  measure abc ["a"; "c"]%char model_abc abc =
    Ok (score_sum model_abc ["a"; "c"]%char) ∧
  ∃ scoreBest : R,
    measure cba ["a"; "c"]%char model_abc abc = Ok scoreBest ∧
    score_sum model_abc ["a"; "c"]%char <= scoreBest.
Proof.
  assert (metropolisHastings abc ["a"; "c"]%char model_abc 1 [0; 1; 2]%nat
            draws_example = Ok cba) as Hrun.
  { unfold metropolisHastings. by rewrite example_run. }
  assert (0 ≤ 1)%nat as Hm by lia.
  assert (mh_run abc ["a"; "c"]%char model_abc [0; 1; 2]%nat draws_example 0 =
          Ok (State abc abc)) as Hst by reflexivity.
  pose proof (measure_example abc ["a"; "c"]%char ["a"; "c"]%char eq_refl) as Hsc.
  split; [exact Hrun|]. split; [exact Hm|]. split; [exact Hst|].
  split; [exact Hsc|].
  exact (best_dominates_visited abc ["a"; "c"]%char model_abc 1 [0; 1; 2]%nat
           draws_example cba 0 (State abc abc) _ Hrun Hm Hst Hsc).
Defined.

Lemma mh_step_short (encipheredMessage : list ascii) M (alphabet : list ascii)
    draws st i :
  (length (currCipher st) < 2)%nat →
  mh_step encipheredMessage M alphabet draws st i = Err ValueError.
Proof.
  intros Hlen. unfold mh_step, swapCipher, random_sample.
  rewrite length_seq. by rewrite decide_True by done.
Qed.

(** On an alphabet of fewer than two symbols the search only works with no
    iteration at all: with [max_iter = 0] it returns the initial permutation
    without proposing or scoring anything, and with any larger budget the
    first proposal raises [ValueError]. *)
Theorem metropolisHastings_degenerate (alphabet encipheredMessage : list ascii)
    (M : gmap ascii (gmap ascii R)) (max_iter : nat) (init : list nat)
    (draws : nat → draw) :
  (length alphabet < 2)%nat →
  sample_ok (length alphabet) (length alphabet) init →
  metropolisHastings alphabet encipheredMessage M 0 init draws =
    permuteAlph alphabet init ∧
  metropolisHastings alphabet encipheredMessage M (S max_iter) init draws =
    Err ValueError.
Proof.
  intros Hlen Hinit.
  destruct (permuteAlph_valid alphabet init Hinit) as (p & Hp & Hperm).
  unfold metropolisHastings, mh_run. rewrite Hp. split; [done|].
  cbn [seq foldM mbind result_bind].
  rewrite mh_step_short; [done|]. cbn. by rewrite Hperm.
Qed.

Lemma metropolisHastings_degenerate_witness :
  (length ["a"]%char < 2)%nat ∧
  sample_ok (length ["a"]%char) (length ["a"]%char) [0]%nat ∧
  metropolisHastings ["a"]%char ["a"; "a"]%char model_abc 0 [0]%nat draws_example =
    permuteAlph ["a"]%char [0]%nat ∧
  metropolisHastings ["a"]%char ["a"; "a"]%char model_abc 3 [0]%nat draws_example =
    Err ValueError.
Proof.
  assert (length ["a"]%char < 2)%nat as Hlen by (simpl; lia).
  assert (sample_ok (length ["a"]%char) (length ["a"]%char) [0]%nat) as Hinit.
  { split; [reflexivity|]. split; [decide_closed|].
    repeat constructor; simpl; lia. }
  split; [exact Hlen|]. split; [exact Hinit|].
  exact (metropolisHastings_degenerate ["a"]%char ["a"; "a"]%char model_abc 2
           [0]%nat draws_example Hlen Hinit).
Defined.

(** ** The transition model *)

Lemma has_entry_true (M : gmap ascii (gmap ascii R)) c1 row c2 v :
  M !! c1 = Some row → row !! c2 = Some v → has_entry M = true.
Proof.
  intros Hrow Hv. unfold has_entry. apply existsb_exists. exists (c1, row). split.
  - apply list_elem_of_In. by apply elem_of_map_to_list.
  - cbn. apply negb_true_iff, bool_decide_eq_false.
    intros Hdom. assert (c2 ∈ dom row) as Hc by (apply elem_of_dom; by eexists).
    rewrite Hdom in Hc. by apply not_elem_of_empty in Hc.
Qed.

(** What [transitionMatrix] returns, when it returns: the matrix of counts,
    every entry divided by the total (unless there is no entry at all), zeros
    replaced by the floor. *)
Lemma transitionMatrix_inv (readFile : list (list ascii)) (alphabet : list ascii) M :
  transitionMatrix readFile alphabet = Ok M →
  ∃ Mc, counts_inv alphabet (file_pairs readFile) Mc ∧
    ((matrix_total Mc ≠ 0 ∧
      M = floor_zeros ((λ row : gmap ascii R,
                          (λ v, v / matrix_total Mc) <$> row) <$> Mc)) ∨
     (has_entry Mc = false ∧ M = floor_zeros Mc)).
Proof.
  destruct (count_file_inv readFile alphabet) as (Mc & Hcount & Hinv).
  unfold transitionMatrix. rewrite Hcount. cbn. unfold normalize.
  intros HM. exists Mc. split; [done|].
  destruct (Req_dec_T (matrix_total Mc) 0) as [Hz|Hnz].
  - destruct (has_entry Mc) eqn:He; [done|]. right. split; [done|].
    cbn in HM. by injection HM as <-.
  - left. split; [done|]. cbn in HM. by injection HM as <-.
Qed.

Lemma floor_zeros_lookup (M : gmap ascii (gmap ascii R)) c1 c2 :
  floor_zeros M !! c1 ≫= (λ row, row !! c2) =
  (λ v, if Req_dec_T v 0 then exp (-20) else v) <$> (M !! c1 ≫= (λ row, row !! c2)).
Proof.
  unfold floor_zeros. rewrite lookup_fmap.
  destruct (M !! c1) as [row|]; cbn; [|done]. by rewrite lookup_fmap.
Qed.

Lemma transitionMatrix_lookup (readFile : list (list ascii)) (alphabet : list ascii)
    M c1 c2 :
  transitionMatrix readFile alphabet = Ok M →
  (c1 ∈ alphabet ∧ c2 ∈ alphabet ∧ ∃ p, M !! c1 ≫= (λ row, row !! c2) = Some p ∧ 0 < p) ∨
  ((c1 ∉ alphabet ∨ c2 ∉ alphabet) ∧ M !! c1 ≫= (λ row, row !! c2) = None).
Proof.
  intros (Mc & (Hkeys & Hrows & Hval & Htot) & Hcases)%transitionMatrix_inv.
  assert (∀ v : R, 0 <= v → 0 < (if Req_dec_T v 0 then exp (-20) else v)) as Hfloor.
  { intros v Hv. destruct (Req_dec_T v 0); [apply exp_pos|lra]. }
  destruct (Mc !! c1) as [row|] eqn:Hrow.
  - destruct (row !! c2) as [v|] eqn:Hv.
    + left. split; [apply Hkeys; by eexists|].
      split; [apply (Hrows c1 row c2 Hrow); by eexists|].
      pose proof (Hval c1 row c2 v Hrow Hv) as Hcount.
      pose proof (pos_INR (pair_count c1 c2 (file_pairs readFile))) as Hpos.
      destruct Hcases as [[Hnz ->]|[He ->]].
      * rewrite floor_zeros_lookup, lookup_fmap, Hrow. cbn.
        rewrite lookup_fmap, Hv. cbn. eexists. split; [done|].
        apply Hfloor. rewrite Htot in Hnz |- *. rewrite Hcount.
        pose proof (pos_INR (length (counted alphabet (file_pairs readFile)))).
        apply Rmult_le_pos; [lra|]. left. apply Rinv_0_lt_compat. lra.
      * by rewrite (has_entry_true Mc c1 row c2 v Hrow Hv) in He.
    + right. split.
      * right. intros [v' Hv']%(Hrows c1 row c2 Hrow). congruence.
      * destruct Hcases as [[_ ->]|[_ ->]]; rewrite floor_zeros_lookup.
        -- rewrite lookup_fmap, Hrow. cbn. by rewrite lookup_fmap, Hv.
        -- by rewrite Hrow; cbn; rewrite Hv.
  - right. split.
    + left. intros [row Hrow']%Hkeys. congruence.
    + destruct Hcases as [[_ ->]|[_ ->]]; rewrite floor_zeros_lookup.
      * by rewrite lookup_fmap, Hrow.
      * by rewrite Hrow.
Qed.

Lemma transitionMatrix_positive (readFile : list (list ascii)) (alphabet : list ascii) M :
  transitionMatrix readFile alphabet = Ok M → positive_model M.
Proof.
  intros HM a b row v Hrow Hv.
  destruct (transitionMatrix_lookup readFile alphabet M a b HM)
    as [(_ & _ & p & Hp & Hpos)|[_ Hnone]];
    rewrite Hrow in *; cbn in *; congruence.
Qed.

(** With no counted pair there is nothing to normalise by: the division of
    line 126 raises [ZeroDivisionError], unless the alphabet is empty, in which
    case the empty model is written. *)
Theorem transitionMatrix_without_pairs (readFile : list (list ascii))
    (alphabet : list ascii) :
  length (counted alphabet (file_pairs readFile)) = 0%nat →
  transitionMatrix readFile alphabet =
    match alphabet with
    | [] => Ok ∅
    | _ :: _ => Err ZeroDivisionError
    end.
Proof.
  intros Htotal. destruct alphabet as [|c alphabet].
  - destruct (count_file_inv readFile []) as (Mc & Hcount & Hkeys & _ & _ & Htot).
    assert (Mc = ∅) as ->.
    { apply map_empty. intros c. apply eq_None_not_Some.
      intros Hc%Hkeys. by apply elem_of_nil in Hc. }
    unfold transitionMatrix. rewrite Hcount. cbn. unfold normalize.
    destruct (Req_dec_T (matrix_total ∅) 0) as [_|Hn]; [|by destruct Hn].
    unfold has_entry. rewrite map_to_list_empty. cbn.
    unfold floor_zeros. by rewrite fmap_empty.
  - by apply transitionMatrix_no_pairs.
Qed.

Lemma transitionMatrix_without_pairs_witness :
  length (counted ["a"; "b"]%char (file_pairs [["a"; "z"; "b"]%char; ["b"]%char])) = 0%nat ∧
  transitionMatrix [["a"; "z"; "b"]%char; ["b"]%char] ["a"; "b"]%char =
    Err ZeroDivisionError.
Proof.
  assert (length (counted ["a"; "b"]%char
                    (file_pairs [["a"; "z"; "b"]%char; ["b"]%char])) = 0%nat)
    as Htotal by (vm_compute; reflexivity).
  split; [exact Htotal|].
  exact (transitionMatrix_without_pairs [["a"; "z"; "b"]%char; ["b"]%char]
           ["a"; "b"]%char Htotal).
Defined.

(** The model [transitionMatrix] writes has an entry exactly for the ordered
    pairs of alphabet symbols, and every entry is positive: the symbols of the
    file that are not in the alphabet leave no trace. *)
Theorem transitionMatrix_entries (readFile : list (list ascii))
    (alphabet : list ascii) (M : gmap ascii (gmap ascii R)) :
  transitionMatrix readFile alphabet = Ok M →
  positive_model M ∧
  ∀ c1 c2, is_Some (M !! c1 ≫= (λ row, row !! c2)) ↔ c1 ∈ alphabet ∧ c2 ∈ alphabet.
Proof.
  intros HM. split; [by eapply transitionMatrix_positive|].
  intros c1 c2.
  destruct (transitionMatrix_lookup readFile alphabet M c1 c2 HM)
    as [(H1 & H2 & p & Hp & _)|[Hnot Hnone]].
  - rewrite Hp. split; [done|by eexists].
  - rewrite Hnone. split; [by intros [? ?]|]. intros [? ?]. by destruct Hnot.
Qed.

(** A model built by [transitionMatrix] never makes the scorer raise: with a
    cipher no longer than the alphabet, [measure] returns a score for every
    message, whatever alphabet the model was built for. *)
Theorem measure_on_built_model (readFile : list (list ascii))
    (modelAlphabet cipher encipheredMessage alphabet : list ascii)
    (M : gmap ascii (gmap ascii R)) :
  transitionMatrix readFile modelAlphabet = Ok M →
  (length cipher ≤ length alphabet)%nat →
  ∃ score : R, measure cipher encipheredMessage M alphabet = Ok score.
Proof.
  intros HM Hlen.
  destruct (measure_Ok cipher encipheredMessage M alphabet Hlen)
    as (decoded & _ & Hm); [by eapply transitionMatrix_positive|].
  by eexists.
Qed.

Lemma transitionMatrix_Ok (readFile : list (list ascii)) (alphabet : list ascii) :
  (0 < length (counted alphabet (file_pairs readFile)))%nat →
  ∃ M, transitionMatrix readFile alphabet = Ok M.
Proof.
  intros Htotal.
  destruct (count_file_inv readFile alphabet) as (Mc & Hcount & _ & _ & _ & Htot).
  unfold transitionMatrix. rewrite Hcount. cbn. unfold normalize.
  destruct (Req_dec_T (matrix_total Mc) 0) as [Hz|_]; [|by eexists].
  rewrite Htot in Hz. apply lt_INR in Htotal. simpl in Htotal. lra.
Qed.

Lemma corpus_example_counted :
  (0 < length (counted ["a"; "b"]%char (file_pairs corpus_example)))%nat.
Proof. vm_compute. lia. Qed.

Lemma transitionMatrix_entries_witness :
  ∃ M : gmap ascii (gmap ascii R),
    transitionMatrix corpus_example ["a"; "b"]%char = Ok M ∧
    positive_model M ∧
    ∀ c1 c2, is_Some (M !! c1 ≫= (λ row, row !! c2)) ↔
             c1 ∈ ["a"; "b"]%char ∧ c2 ∈ ["a"; "b"]%char.
Proof.
  destruct (transitionMatrix_Ok corpus_example ["a"; "b"]%char
              corpus_example_counted) as [M HM].
  exists M. split; [exact HM|].
  exact (transitionMatrix_entries corpus_example ["a"; "b"]%char M HM).
Defined.

Lemma measure_on_built_model_witness :
  ∃ M : gmap ascii (gmap ascii R),
    transitionMatrix corpus_example ["a"; "b"]%char = Ok M ∧
    (length bca ≤ length abc)%nat ∧
    ∃ score : R, measure bca ["a"; "b"; "?"; "c"]%char M abc = Ok score.
Proof.
  destruct (transitionMatrix_Ok corpus_example ["a"; "b"]%char
              corpus_example_counted) as [M HM].
  assert (length bca ≤ length abc)%nat as Hlen by (simpl; lia).
  exists M. split; [exact HM|]. split; [exact Hlen|].
  exact (measure_on_built_model corpus_example ["a"; "b"]%char bca
           ["a"; "b"; "?"; "c"]%char abc M HM Hlen).
Defined.

Lemma rstrip_spaces (ws : list ascii) :
  Forall (λ c, isspace c = true) ws → rstrip ws = [].
Proof.
  induction 1 as [|c ws Hc _ IH]; [done|]. cbn [rstrip]. by rewrite IH, Hc.
Qed.

Lemma rstrip_app_spaces (line ws : list ascii) :
  Forall (λ c, isspace c = true) ws → rstrip (line ++ ws) = rstrip line.
Proof.
  intros Hws. induction line as [|c line IH]; [by apply rstrip_spaces|].
  cbn [app rstrip]. by rewrite IH.
Qed.

(** White space at the end of a line is never counted, be it the line break
    or blanks that are symbols of the alphabet: two files whose lines differ
    only by trailing white space give the same result. *)
Theorem transitionMatrix_trailing_space (readFile readFile' : list (list ascii))
    (alphabet : list ascii) :
  Forall2 (λ line line', ∃ ws, Forall (λ c, isspace c = true) ws ∧
                               line' = line ++ ws) readFile readFile' →
  transitionMatrix readFile' alphabet = transitionMatrix readFile alphabet.
Proof.
  intros Hlines.
  assert (file_pairs readFile' = file_pairs readFile) as Hpairs.
  { unfold file_pairs. induction Hlines as [|l l' rf rf' (ws & Hws & ->) _ IH];
      [done|].
    cbn. by rewrite IH, rstrip_app_spaces. }
  unfold transitionMatrix. by rewrite !count_file_Ok, Hpairs.
Qed.

Lemma transitionMatrix_trailing_space_witness :
  Forall2 (λ line line', ∃ ws, Forall (λ c, isspace c = true) ws ∧
                               line' = line ++ ws)
          [["a"; "b"; "a"]%char; ["b"; "a"]%char] corpus_example ∧
  transitionMatrix corpus_example ["a"; "b"; " "]%char =
  transitionMatrix [["a"; "b"; "a"]%char; ["b"; "a"]%char] ["a"; "b"; " "]%char.
Proof.
  assert (Forall2 (λ line line', ∃ ws, Forall (λ c, isspace c = true) ws ∧
                                       line' = line ++ ws)
            [["a"; "b"; "a"]%char; ["b"; "a"]%char] corpus_example) as Hlines.
  { constructor; [|constructor; [|constructor]].
    - exists [" "; "010"]%char. split; [by repeat constructor|done].
    - exists []. split; [constructor|done]. }
  split; [exact Hlines|].
  exact (transitionMatrix_trailing_space _ _ ["a"; "b"; " "]%char Hlines).
Defined.

(** ** The driver *)

(** With an alphabet of at least two symbols, a model of positive entries and
    draws that keep the contract of [random.sample], the driver raises
    nothing.  The cipher it draws and the cipher it reports are permutations
    of the alphabet, the enciphered and the recovered text are as long as the
    message, and when the alphabet is duplicate-free and the search has found
    the cipher that was used, the recovered text is the message. *)
Theorem main_report (alphabet message : list ascii) (M : gmap ascii (gmap ascii R))
    (cipher_positions init : list nat) (draws : nat → draw) :
  (2 ≤ length alphabet)%nat → positive_model M →
  sample_ok (length alphabet) (length alphabet) cipher_positions →
  sample_ok (length alphabet) (length alphabet) init →
  (∀ i, sample_ok (length alphabet) 2 (swap_positions (draws i))) →
  ∃ r : report,
    main alphabet message M cipher_positions init draws = Ok r ∧
    cipher_used r ≡ₚ alphabet ∧ revCipher r ≡ₚ alphabet ∧
    length (enciphered r) = length message ∧
    length (recovered r) = length message ∧
    (NoDup alphabet → revCipher r = cipher_used r → recovered r = message).
Proof.
  intros Hlen Hpos Hcipher Hinit Hdraws. unfold main.
  destruct (permuteAlph_valid alphabet cipher_positions Hcipher)
    as (cipher & -> & Hperm). cbn [mbind result_bind].
  destruct (encipher_Ok message cipher alphabet) as (cm & _ & Henc);
    [by rewrite Hperm|].
  rewrite Henc. cbn [mbind result_bind].
  destruct (mh_run_Ok alphabet (substitute cm <$> message) M draws init Hinit
              default_max_iter Hlen Hpos (λ i _, Hdraws i)) as [st Hst].
  destruct (mh_run_permutation _ _ _ _ _ Hinit _ _ (λ i _, Hdraws i) Hst)
    as [_ Hbest].
  unfold metropolisHastings. rewrite Hst. cbn [mbind result_bind].
  destruct (encipher_Ok (substitute cm <$> message) alphabet (bestRevCipher st))
    as (cm' & _ & Hdec); [by rewrite Hbest|].
  rewrite Hdec. cbn [mbind result_bind]. eexists. split; [done|].
  cbn [cipher_used enciphered revCipher recovered].
  split; [done|]. split; [done|].
  split; [by rewrite length_fmap|]. split; [by rewrite !length_fmap|].
  intros Hnd Heq.
  destruct (encipher_round_trip alphabet cipher message Hnd Hperm)
    as (enc & Henc' & Hback).
  assert (enc = substitute cm <$> message) as -> by congruence.
  rewrite Heq in Hdec. congruence.
Qed.

Lemma main_report_witness :
  (2 ≤ length abc)%nat ∧ positive_model model_abc ∧
  sample_ok (length abc) (length abc) [0; 1; 2]%nat ∧
  ∃ r : report,
    main abc ["a"; "b"; " "; "c"; "a"]%char model_abc [0; 1; 2]%nat [0; 1; 2]%nat
         draws_example = Ok r ∧
    cipher_used r ≡ₚ abc ∧ revCipher r ≡ₚ abc ∧
    length (enciphered r) = length ["a"; "b"; " "; "c"; "a"]%char ∧
    length (recovered r) = length ["a"; "b"; " "; "c"; "a"]%char ∧
    (NoDup abc → revCipher r = cipher_used r →
     recovered r = ["a"; "b"; " "; "c"; "a"]%char).
Proof.
  assert (2 ≤ length abc)%nat as Hlen by (simpl; lia).
  split; [exact Hlen|]. split; [exact positive_model_abc|].
  split; [exact init_example_ok|].
  exact (main_report abc ["a"; "b"; " "; "c"; "a"]%char model_abc [0; 1; 2]%nat
           [0; 1; 2]%nat draws_example Hlen positive_model_abc init_example_ok
           init_example_ok draws_example_ok).
Defined.

(** ** More on the codec *)

(** [encipher] raises exactly when the cipher is shorter than the alphabet,
    an [IndexError] of line 46 and never anything else; the message plays no
    part in it, an empty message raises as well. *)
Theorem encipher_exceptions (message cipher alphabet : list ascii) :
  (encipher message cipher alphabet = Err IndexError ↔
   (length cipher < length alphabet)%nat) ∧
  (∀ e, encipher message cipher alphabet = Err e → e = IndexError) ∧
  (encipher message cipher alphabet = Err IndexError ↔
   encipher [] cipher alphabet = Err IndexError).
Proof.
  split; [|split].
  - rewrite encipher_Err. split; [by intros [? _] | by intros ?].
  - by intros e [_ ->]%encipher_Err.
  - by rewrite !encipher_Err.
Qed.